(** * Voice-synced teleprompter: the alignment core

    A shallow embedding of the matching pipeline of the teleprompter:
    [normalizeText] and [calculateMatch] and the [POST /transcribe] handler
    of [server.js], and the position tracker of the browser client
    ([processAudioChunk], [resetPosition], [jumpToWord], [loadScript], the
    start and stop buttons); then the session gate ([requireAuth], the login
    route) and the script store and activity log behind it.

    Conventions of the embedding.
    - A JavaScript string is a [string]: a sequence of 8-bit code units read
      as Latin-1, which is closed under [toLowerCase] and contains the
      [\w] class and seven of the [\s] characters.
    - A JavaScript number that holds a score or a threshold is an exact
      rational [Q], without the rounding of IEEE doubles; the credits of the
      matcher are [1], [1/2] and [8/10].  Word positions are [nat], absolute
      script indices are [Z].  A score of the model can therefore differ
      from the double of the code in the last place; the outer loop is also
      given for arbitrary scores ([scan_of]).
    - The speech recogniser is an oracle: each audio chunk is represented by
      the outcome of its recognition call. *)

From Stdlib Require Import Ascii String QArith Lqa Sorted.
From stdpp Require Import gmap strings list.

Local Open Scope string_scope.

(** ** JavaScript string primitives used by the server *)

Module JS.

Definition code (c : ascii) : nat := nat_of_ascii c.

Definition between (lo hi n : nat) : bool := (lo <=? n)%nat && (n <=? hi)%nat.

(** The class [\w]: ASCII letters, digits and the underscore. *)
Definition is_word (c : ascii) : bool :=
  between 97 122 (code c) || between 65 90 (code c)
  || between 48 57 (code c) || (code c =? 95)%nat.

(** The class [\s] below U+0100: TAB, LF, VT, FF, CR, SPACE and NBSP. *)
Definition is_space (c : ascii) : bool :=
  between 9 13 (code c) || (code c =? 32)%nat || (code c =? 160)%nat.

(** [toLowerCase] on one Latin-1 code unit: A-Z, and the accented capitals
    U+00C0..U+00DE except the multiplication sign U+00D7. *)
Definition lower_char (c : ascii) : ascii :=
  if between 65 90 (code c)
     || (between 192 222 (code c) && negb (code c =? 215)%nat)
  then ascii_of_nat (code c + 32) else c.

Fixpoint toLowerCase (s : string) : string :=
  match s with
  | EmptyString => EmptyString
  | String c r => String (lower_char c) (toLowerCase r)
  end.

(** [s.replace(/[^\w\s]/g, '')]. *)
Fixpoint strip_punctuation (s : string) : string :=
  match s with
  | EmptyString => EmptyString
  | String c r =>
      if is_word c || is_space c then String c (strip_punctuation r)
      else strip_punctuation r
  end.

(** [s.replace(/\s+/g, ' ')]; [in_run] tells that the previous code unit
    was white space, whose run has already been replaced. *)
Fixpoint collapse_spaces (in_run : bool) (s : string) : string :=
  match s with
  | EmptyString => EmptyString
  | String c r =>
      if is_space c
      then (if in_run then collapse_spaces true r
            else String " " (collapse_spaces true r))
      else String c (collapse_spaces false r)
  end.

Fixpoint trimStart (s : string) : string :=
  match s with
  | EmptyString => EmptyString
  | String c r => if is_space c then trimStart r else s
  end.

(** [all_space s]: every code unit of [s] is white space. *)
Fixpoint all_space (s : string) : bool :=
  match s with
  | EmptyString => true
  | String c r => is_space c && all_space r
  end.

Fixpoint trimEnd (s : string) : string :=
  match s with
  | EmptyString => EmptyString
  | String c r => if all_space s then EmptyString else String c (trimEnd r)
  end.

Definition trim (s : string) : string := trimEnd (trimStart s).

(** [s.split(sep)] for a one-character separator: never an empty array. *)
Fixpoint split (sep : ascii) (s : string) : list string :=
  match s with
  | EmptyString => [EmptyString]
  | String c r =>
      if Ascii.eqb c sep then EmptyString :: split sep r
      else match split sep r with
           | w :: ws => String c w :: ws
           | [] => [String c EmptyString]
           end
  end.

(** [hay.includes(needle)]. *)
Fixpoint includes (hay needle : string) : bool :=
  String.prefix needle hay
  || match hay with
     | EmptyString => false
     | String _ r => includes r needle
     end.

End JS.

(** ** The matcher of [server.js] *)

(** [normalizeText]: lowercase, remove punctuation, normalise white space. *)
Definition normalizeText (text : string) : string :=
  JS.trim (JS.collapse_spaces false (JS.strip_punctuation (JS.toLowerCase text))).

(** [normalizeText(transcript).split(' ').filter(w => w.length > 0)]. *)
Definition tokenize (transcript : string) : list string :=
  filter (fun w : string => (0 <? String.length w)%nat = true)
         (JS.split " " (normalizeText transcript)).

Record MatchResult := mkMatch { score : Q; matchedIndex : option nat }.

(** [scriptWords[position]]; read only under a guard [position < length]. *)
Definition word_at (scriptWords : list string) (position : nat) : string :=
  default EmptyString (scriptWords !! position).

(** One iteration of the inner loop body (lines 91-113): the cursor and the
    credit after transcript token [transcriptWord] has been compared at
    [position]. *)
Definition match_token (scriptWords : list string) (transcriptWord : string)
    (position : nat) (matchCount : Q) : nat * Q :=
  let scriptWord := normalizeText (word_at scriptWords position) in
  if String.eqb scriptWord transcriptWord then
    ((position + 1)%nat, (matchCount + 1)%Q)
  else if JS.includes scriptWord transcriptWord
          || JS.includes transcriptWord scriptWord then
    ((position + 1)%nat, (matchCount + (1 # 2))%Q)
  else if (position + 1 <? length scriptWords)%nat then
    let nextScriptWord := normalizeText (word_at scriptWords (position + 1)) in
    if String.eqb nextScriptWord transcriptWord then
      ((position + 2)%nat, (matchCount + (8 # 10))%Q)
    else
      ((position + 1)%nat, matchCount)
  else
    (position, matchCount).

(** The inner loop: [for (j = 0; j < tokens.length && position < length; j++)]. *)
Fixpoint walk (scriptWords tokens : list string) (position : nat)
    (matchCount : Q) : nat * Q :=
  match tokens with
  | [] => (position, matchCount)
  | transcriptWord :: rest =>
      if (position <? length scriptWords)%nat then
        let '(position', matchCount') :=
          match_token scriptWords transcriptWord position matchCount in
        walk scriptWords rest position' matchCount'
      else (position, matchCount)
  end.

(** [score] of candidate start [i] (lines 86-117). *)
Definition candidate_score (scriptWords tokens : list string) (i : nat) : Q :=
  snd (walk scriptWords tokens i 0) / inject_Z (Z.of_nat (length tokens)).

(** [a > b] on numbers. *)
Definition Qgtb (a b : Q) : bool :=
  match (a ?= b)%Q with Gt => true | _ => false end.

(** The body of the outer loop after the walk (lines 119-122). *)
Definition keep_best (scriptWords tokens : list string)
    (best : Q * option nat) (i : nat) : Q * option nat :=
  let score := candidate_score scriptWords tokens i in
  if Qgtb score (fst best) then (score, Some i) else best.

(** The outer loop over the candidate starts [0 .. length - 1]. *)
Definition scan (scriptWords tokens : list string) (starts : list nat)
    (best : Q * option nat) : Q * option nat :=
  fold_left (keep_best scriptWords tokens) starts best.

Definition match_tokens (tokens scriptWords : list string) : MatchResult :=
  if (length tokens =? 0)%nat then mkMatch 0 None
  else
    let '(bestScore, bestIndex) :=
      scan scriptWords tokens (seq 0 (length scriptWords)) (0%Q, None) in
    mkMatch bestScore bestIndex.

Definition calculateMatch (transcript : string) (scriptWords : list string)
    : MatchResult :=
  match_tokens (tokenize transcript) scriptWords.

(** ** The [POST /transcribe] handler of [server.js] *)

Inductive Status := IDLE | RUNNING | PAUSED.

#[global] Instance Status_eq_dec : EqDecision Status.
Proof. solve_decision. Defined.

(** The multipart request as the handler reads it: whether an audio file is
    attached, and the three body fields after [JSON.parse], [parseInt] and
    [parseFloat]; an absent field is [None]. *)
Record Request := mkRequest {
  hasFile : bool;
  scriptWindow : option (list string);
  currentIndex : option Z;
  threshold : option Q
}.

(** The JSON body of a successful response. *)
Record Response := mkResponse {
  transcript : string;
  confidence : Q;
  absoluteMatchedIndex : option Z;
  state : Status
}.

Inductive Reply :=
| Ok200 (body : Response)
| Err400
| Err500.

(** Lines 176-190: the state and the absolute index from a match result. *)
Definition respond (transcript : string) (matchResult : MatchResult)
    (currentIndex : Z) (threshold : Q) : Response :=
  let state := if Qle_bool threshold (score matchResult) then RUNNING else PAUSED in
  let absoluteMatchedIndex :=
    match matchedIndex matchResult with
    | Some m =>
        if decide (state = RUNNING) then Some (currentIndex + Z.of_nat m)%Z
        else None
    | None => None
    end in
  mkResponse transcript (score matchResult) absoluteMatchedIndex state.

(** The handler; [recognised] is the outcome of the recognition call:
    [None] when it throws, otherwise [transcription.text || '']. *)
Definition transcribe (req : Request) (recognised : option string) : Reply :=
  if negb (hasFile req) then Err400
  else
    let scriptWindow := default [] (scriptWindow req) in
    let currentIndex := default 0%Z (currentIndex req) in
    let threshold := default (6 # 10) (threshold req) in
    match recognised with
    | None => Err500
    | Some transcript =>
        if String.eqb (JS.trim transcript) EmptyString then
          Ok200 (mkResponse EmptyString 0 None PAUSED)
        else
          let matchResult := calculateMatch transcript scriptWindow in
          Ok200 (respond transcript matchResult currentIndex threshold)
    end.

(** ** The position tracker of the browser client *)

Module CONFIG.
Definition matchingWindow : Z := 30.
Definition matchThreshold : Q := 6 # 10.
End CONFIG.

Record AppState := mkApp {
  status : Status;
  scriptWords : list string;
  currentWordIndex : Z;
  isRecording : bool
}.

Definition set_status (s : Status) (st : AppState) : AppState :=
  mkApp s (scriptWords st) (currentWordIndex st) (isRecording st).

Definition set_index (i : Z) (st : AppState) : AppState :=
  mkApp (status st) (scriptWords st) i (isRecording st).

Definition set_recording (b : bool) (st : AppState) : AppState :=
  mkApp (status st) (scriptWords st) (currentWordIndex st) b.

(** [Array.prototype.slice(start, end)]: a negative bound counts from the
    end of the array, and every bound is clamped to the array. *)
Definition slice_bound (len k : Z) : Z :=
  if (k <? 0)%Z then Z.max (len + k) 0 else Z.min k len.

Definition slice {A} (l : list A) (start stop : Z) : list A :=
  let len := Z.of_nat (length l) in
  let from := slice_bound len start in
  let to := slice_bound len stop in
  take (Z.to_nat (to - from)) (drop (Z.to_nat from) l).

(** [processAudioChunk] up to its [await fetch] (lines 227-245). *)
Definition buildRequest (st : AppState) : Request :=
  let windowStart := currentWordIndex st in
  let windowEnd :=
    Z.min (currentWordIndex st + CONFIG.matchingWindow)
          (Z.of_nat (length (scriptWords st))) in
  let scriptWindow := slice (scriptWords st) windowStart windowEnd in
  mkRequest true (Some scriptWindow) (Some (currentWordIndex st))
            (Some CONFIG.matchThreshold).

(** [processAudioChunk] after the response has arrived (lines 247-275); a
    response that is not [ok] throws into the [catch], which leaves the
    tracker alone. *)
Definition handleReply (st : AppState) (reply : Reply) : AppState :=
  match reply with
  | Ok200 result =>
      match state result, absoluteMatchedIndex result with
      | RUNNING, Some matched =>
          set_status RUNNING (set_index (matched + 1)%Z st)
      | _, _ => set_status PAUSED st
      end
  | Err400 | Err500 => st
  end.

(** [processAudioChunk] when nothing else runs during the [await]. *)
Definition processAudioChunk (st : AppState) (recognised : option string)
    : AppState :=
  handleReply st (transcribe (buildRequest st) recognised).

(** [startTeleprompter] once the microphone has been granted. *)
Definition startTeleprompter (st : AppState) : AppState :=
  set_status RUNNING (set_recording true st).

Definition stopTeleprompter (st : AppState) : AppState :=
  set_status IDLE (set_recording false st).

Definition resetPosition (st : AppState) : AppState := set_index 0 st.

Definition jumpToWord (index : Z) (st : AppState) : AppState :=
  set_index index st.

Definition loaded (script : list string) : AppState :=
  mkApp IDLE script 0 false.

(** ** The client as an event loop

    [processAudioChunk] suspends at [await fetch]: whatever the event loop
    runs before the response arrives (a click, another chunk's capture,
    another chunk's response) sees and changes the same [state] object.
    A [World] is that object together with the requests in flight.  The
    client gives chunks no number; [nextSeq] and [applied] are bookkeeping
    of the model: the capture order of each chunk, and the chunks whose
    match result has been applied to the tracker, in the order it happened. *)

Record World := mkWorld {
  app : AppState;
  inflight : gmap nat Request;
  nextSeq : nat;
  applied : list nat
}.

Inductive Event :=
| StartClicked
| StopClicked
| ResetClicked
| WordClicked (index : Z)
| ChunkCaptured
| ResponseArrived (seq : nat) (recognised : option string).

Definition is_ok (reply : Reply) : bool :=
  match reply with Ok200 _ => true | _ => false end.

(** One turn of the event loop; [None] when the response of a chunk that
    is not in flight is asked for. *)
Definition step (w : World) (e : Event) : option World :=
  match e with
  | StartClicked =>
      Some (mkWorld (startTeleprompter (app w)) (inflight w) (nextSeq w) (applied w))
  | StopClicked =>
      Some (mkWorld (stopTeleprompter (app w)) (inflight w) (nextSeq w) (applied w))
  | ResetClicked =>
      Some (mkWorld (resetPosition (app w)) (inflight w) (nextSeq w) (applied w))
  | WordClicked index =>
      Some (mkWorld (jumpToWord index (app w)) (inflight w) (nextSeq w) (applied w))
  | ChunkCaptured =>
      Some (mkWorld (app w) (<[nextSeq w := buildRequest (app w)]> (inflight w))
                    (S (nextSeq w)) (applied w))
  | ResponseArrived seq recognised =>
      match inflight w !! seq with
      | None => None
      | Some req =>
          let reply := transcribe req recognised in
          Some (mkWorld (handleReply (app w) reply) (delete seq (inflight w))
                        (nextSeq w)
                        (if is_ok reply then applied w ++ [seq] else applied w))
      end
  end.

Fixpoint run (w : World) (events : list Event) : option World :=
  match events with
  | [] => Some w
  | e :: rest =>
      match step w e with
      | Some w' => run w' rest
      | None => None
      end
  end.

Definition boot (script : list string) : World :=
  mkWorld (loaded script) ∅ 0 [].

(** The chunks of [events] whose recognition call returns, in arrival order. *)
Fixpoint answered (events : list Event) : list nat :=
  match events with
  | [] => []
  | ResponseArrived seq (Some _) :: rest => seq :: answered rest
  | _ :: rest => answered rest
  end.

(** The script of the end-to-end scenario. *)
Definition demoScript : list string :=
  ["Hello"; "world"; "this"; "is"; "a"; "test"].

(** A run in which the second chunk is captured while the first request is
    still in flight, and its response arrives first. *)
Definition overtaking : list Event :=
  [StartClicked; ChunkCaptured; ChunkCaptured;
   ResponseArrived 1 (Some "this is"); ResponseArrived 0 (Some "hello world")].

(** A run in which two chunks are captured before either response arrives,
    and the responses arrive in capture order. *)
Definition overlapping : list Event :=
  [StartClicked; ChunkCaptured; ChunkCaptured;
   ResponseArrived 0 (Some "a test")].

(** ** [loadScript] of the client *)

(** [s.split(/\s+/)]: the pieces between maximal runs of white space;
    [in_run] tells that the previous code unit was white space. *)
Fixpoint split_spaces (in_run : bool) (s : string) : list string :=
  match s with
  | EmptyString => [EmptyString]
  | String c r =>
      if JS.is_space c
      then (if in_run then split_spaces true r
            else EmptyString :: split_spaces true r)
      else match split_spaces false r with
           | w :: ws => String c w :: ws
           | [] => [String c EmptyString]
           end
  end.

Definition set_script (words : list string) (st : AppState) : AppState :=
  mkApp (status st) words (currentWordIndex st) (isRecording st).

(** [loadScript] (lines 108-148); [text] is the value of the input box.
    Both alerts return early; the second one comes after
    [state.scriptWords] has been assigned. *)
Definition loadScript (text : string) (st : AppState) : AppState :=
  let scriptText := JS.trim text in
  if String.eqb scriptText EmptyString then st
  else
    let words :=
      filter (fun w : string => (0 <? String.length w)%nat = true)
             (split_spaces false scriptText) in
    if (length words =? 0)%nat then set_script words st
    else set_index 0 (set_script words st).

(** ** Predicates on strings *)

Fixpoint string_forall (p : ascii -> bool) (s : string) : bool :=
  match s with
  | EmptyString => true
  | String c r => p c && string_forall p r
  end.

(** The code units a normalised token is made of: [a-z0-9_]. *)
Definition is_token_char (c : ascii) : bool :=
  JS.between 97 122 (JS.code c) || JS.between 48 57 (JS.code c)
  || (JS.code c =? 95)%nat.

(** A token character or the space U+0020. *)
Definition is_normal_char (c : ascii) : bool :=
  is_token_char c || Ascii.eqb c " ".

(** No white space after white space; with [after_space], none in front. *)
Fixpoint single_spaced (after_space : bool) (s : string) : bool :=
  match s with
  | EmptyString => true
  | String c r =>
      if JS.is_space c then negb after_space && single_spaced true r
      else single_spaced false r
  end.

(** ** Session authentication of [server.js] *)

Module Auth.

Record Session := mkSession {
  isAuthenticated : bool;
  adminEmail : option string
}.

(** [ADMIN_EMAIL] and [ADMIN_PASSWORD] of the environment; unset is [None]. *)
Record Env := mkEnv {
  ADMIN_EMAIL : option string;
  ADMIN_PASSWORD : option string
}.

(** The fields of the JSON body of [POST /api/login]; absent is [None]. *)
Record Credentials := mkCredentials {
  email : option string;
  password : option string
}.

Inductive Gate := Next | Unauthorized401 | RedirectToLogin.

(** The middleware [requireAuth]. *)
Definition requireAuth (session : option Session) (path : string) : Gate :=
  if default false (isAuthenticated <$> session) then Next
  else if String.prefix "/api/" path then Unauthorized401
  else RedirectToLogin.

(** [POST /api/login]: the session afterwards and whether the answer is
    the success (200) or the 401.  The entry the route adds to the activity
    log on success is [Admin.logActivity] and is left out here. *)
Definition login (env : Env) (body : Credentials) (session : option Session)
    : option Session * bool :=
  if bool_decide (email body = ADMIN_EMAIL env)
     && bool_decide (password body = ADMIN_PASSWORD env)
  then (Some (mkSession true (email body)), true)
  else (session, false).

(** [GET /api/check-auth]: the [authenticated] field of the answer. *)
Definition checkAuth (session : option Session) : bool :=
  default false (isAuthenticated <$> session).

End Auth.

(** ** The script store and the activity log of [server.js]

    [data/scripts.json] and [data/activity.json] are the two fields of a
    [Disk]; a file that cannot be read or parsed is [None].  Writing a file
    succeeds.  The readings of the clock a handler makes are arguments. *)

Module Admin.

Record Script := mkScript {
  id : string;
  title : option string;
  content : option string;
  createdAt : string;
  updatedAt : string
}.

Record Activity := mkActivity {
  activityId : string;
  timestamp : string;
  action : string;
  details : list (string * option string)
}.

Record Disk := mkDisk {
  scriptsFile : option (list Script);
  activityFile : option (list Activity)
}.

Inductive Answer (A : Type) :=
| Ok (payload : A)
| NotFound404
| Failed500.
Arguments Ok {A} payload.
Arguments NotFound404 {A}.
Arguments Failed500 {A}.

(** One reading of [Date.now().toString()] and [new Date().toISOString()]. *)
Record Stamp := mkStamp { millis : string; iso : string }.

(** [logActivity] (lines 378-397): nothing happens when the log cannot be
    read; otherwise the entry is appended and only the last 1000 are kept. *)
Definition logActivity (at_ : Stamp) (action : string)
    (details : list (string * option string)) (disk : Disk) : Disk :=
  match activityFile disk with
  | None => disk
  | Some activity =>
      let activity :=
        (activity ++ [mkActivity (millis at_) (iso at_) action details])%list in
      let activity :=
        if (1000 <? length activity)%nat
        then drop (length activity - 1000) activity
        else activity in
      mkDisk (scriptsFile disk) (Some activity)
  end.

(** [scripts.findIndex(s => s.id === id)]. *)
Definition findIndex (wanted : string) (scripts : list Script) : option nat :=
  fst <$> list_find (fun s => id s = wanted) scripts.

(** [GET /api/admin/scripts]. *)
Definition getScripts (disk : Disk) : Answer (list Script) :=
  match scriptsFile disk with
  | None => Failed500
  | Some scripts => Ok scripts
  end.

(** [POST /api/admin/scripts]; [newId], [created] and [updated] are the
    three readings of the clock for the new script. *)
Definition createScript (newId created updated : string) (logged : Stamp)
    (newTitle newContent : option string) (disk : Disk)
    : Disk * Answer Script :=
  match scriptsFile disk with
  | None => (disk, Failed500)
  | Some scripts =>
      let newScript := mkScript newId newTitle newContent created updated in
      let disk :=
        mkDisk (Some (scripts ++ [newScript])%list) (activityFile disk) in
      (logActivity logged "Script created"
         [("title", newTitle); ("id", Some newId)] disk,
       Ok newScript)
  end.

(** [PUT /api/admin/scripts/:id]; [scripts[index]] is defined, since
    [index] comes from [findIndex]. *)
Definition updateScript (wanted updated : string) (logged : Stamp)
    (newTitle newContent : option string) (disk : Disk)
    : Disk * Answer Script :=
  match scriptsFile disk with
  | None => (disk, Failed500)
  | Some scripts =>
      match findIndex wanted scripts with
      | None => (disk, NotFound404)
      | Some index =>
          match scripts !! index with
          | None => (disk, Failed500)
          | Some old =>
              let changed :=
                mkScript (id old) newTitle newContent (createdAt old) updated in
              let disk :=
                mkDisk (Some (<[index := changed]> scripts)) (activityFile disk) in
              (logActivity logged "Script updated"
                 [("title", newTitle); ("id", Some wanted)] disk,
               Ok changed)
          end
      end
  end.

(** [DELETE /api/admin/scripts/:id]; the answer carries no script. *)
Definition deleteScript (wanted : string) (logged : Stamp) (disk : Disk)
    : Disk * Answer unit :=
  match scriptsFile disk with
  | None => (disk, Failed500)
  | Some scripts =>
      match findIndex wanted scripts with
      | None => (disk, NotFound404)
      | Some index =>
          match scripts !! index with
          | None => (disk, Failed500)
          | Some deletedScript =>
              let disk :=
                mkDisk (Some (delete index scripts)) (activityFile disk) in
              (logActivity logged "Script deleted"
                 [("title", title deletedScript); ("id", Some wanted)] disk,
               Ok tt)
          end
      end
  end.

(** [GET /api/admin/activity]: [activity.slice(-100).reverse()]. *)
Definition getActivity (disk : Disk) : Answer (list Activity) :=
  match activityFile disk with
  | None => Failed500
  | Some activity =>
      Ok (reverse (slice activity (-100) (Z.of_nat (length activity))))
  end.

End Admin.

(** ** The body fields before they are values

    A [Request] holds body fields that are values.  A [Form] holds what
    the parsers of lines 141-143 can give besides: [JSON.parse] throws on a
    malformed [scriptWindow]; [parseInt] returns [NaN], or an infinity for
    an overlong numeral, and [parseFloat] returns [NaN] or [Infinity]:
    [Unparsed] stands for these.  ([-Infinity] as a threshold is below every
    score, like any negative threshold.)  An element of the window that is
    not a string is [None]: [normalizeText] throws when it reads it.  A
    [scriptWindow] that parses to something else than an array is not
    represented. *)

Inductive Field (A : Type) :=
| Absent
| Parsed (a : A)
| Unparsed.
Arguments Absent {A}.
Arguments Parsed {A} a.
Arguments Unparsed {A}.

(** The value the handler computes with: the fallback of [field || '...']
    for an absent field, nothing for a field without a value. *)
Definition field_value {A} (fallback : A) (f : Field A) : option A :=
  match f with
  | Absent => Some fallback
  | Parsed a => Some a
  | Unparsed => None
  end.

Definition field_of {A} (o : option A) : Field A :=
  match o with
  | None => Absent
  | Some a => Parsed a
  end.

Record Form := mkForm {
  file : bool;
  scriptWindowField : Field (list (option string));
  currentIndexField : Field Z;
  thresholdField : Field Q
}.

(** The handler on a form (lines 134-205).  The window is parsed before
    the recognition call.  Every element of the window is read by the walk
    that starts at it as soon as the transcript has a token, so a window
    with an element that is not a string is answered 500 exactly then.  No
    score is at least [NaN] or [Infinity], and [res.json] writes [null] for
    a sum that is not finite. *)
Definition transcribeForm (form : Form) (recognised : option string) : Reply :=
  if negb (file form) then Err400
  else
    match field_value [] (scriptWindowField form) with
    | None => Err500
    | Some elements =>
        match recognised with
        | None => Err500
        | Some transcript =>
            if String.eqb (JS.trim transcript) EmptyString then
              Ok200 (mkResponse EmptyString 0 None PAUSED)
            else
              match mapM id elements, tokenize transcript with
              | None, _ :: _ => Err500
              | strings, _ =>
                  let scriptWindow := default [] strings in
                  let matchResult := calculateMatch transcript scriptWindow in
                  let state :=
                    match field_value (6 # 10) (thresholdField form) with
                    | Some threshold =>
                        if Qle_bool threshold (score matchResult)
                        then RUNNING else PAUSED
                    | None => PAUSED
                    end in
                  let absoluteMatchedIndex :=
                    match matchedIndex matchResult,
                          field_value 0%Z (currentIndexField form) with
                    | Some m, Some currentIndex =>
                        if decide (state = RUNNING)
                        then Some (currentIndex + Z.of_nat m)%Z else None
                    | _, _ => None
                    end in
                  Ok200 (mkResponse transcript (score matchResult)
                                    absoluteMatchedIndex state)
              end
        end
    end.

(** ** The outer loop for any candidate scores

    Lines 85 and 117-123 with the score of candidate [i] left open: a
    finite double is a rational number and [>] on doubles is the order of
    these rationals, so [score_of i] can be the double the code computes
    for the candidate as well as the exact [candidate_score]. *)

Definition keep_best_of (score_of : nat -> Q) (best : Q * option nat) (i : nat)
    : Q * option nat :=
  let score := score_of i in
  if Qgtb score (fst best) then (score, Some i) else best.

Definition scan_of (score_of : nat -> Q) (starts : list nat)
    (best : Q * option nat) : Q * option nat :=
  fold_left (keep_best_of score_of) starts best.

(** * Properties *)

(** ** The model on the examples of the documentation *)

Example tokenize_punctuation :
  tokenize "  Hello,   World!  it's  " = ["hello"; "world"; "its"]
  ∧ tokenize "?!... --" = [].
Proof. vm_compute. split; reflexivity. Qed.

Example exact_match :
  (score (calculateMatch "the quick fox" ["The"; "quick"; "fox"; "jumps"]) == 1)%Q
  ∧ matchedIndex (calculateMatch "the quick fox" ["The"; "quick"; "fox"; "jumps"])
      = Some 0%nat.
Proof. vm_compute. split; reflexivity. Qed.

Example one_dropped_script_word :
  (score (calculateMatch "the quick fox" ["the"; "quick"; "brown"; "fox"])
     == 28 # 30)%Q
  ∧ matchedIndex (calculateMatch "the quick fox" ["the"; "quick"; "brown"; "fox"])
      = Some 0%nat.
Proof. vm_compute. split; reflexivity. Qed.

Example window_of_late_index :
  scriptWindow (buildRequest (set_index 4 (loaded demoScript)))
    = Some ["a"; "test"].
Proof. reflexivity. Qed.

(** ** The handler and the tracker on one result *)

Lemma transcribe_ok_inv req recognised body :
  transcribe req recognised = Ok200 body →
  ∃ text, recognised = Some text ∧ hasFile req = true ∧
    ((JS.trim text = EmptyString ∧ body = mkResponse EmptyString 0 None PAUSED)
     ∨ (JS.trim text ≠ EmptyString ∧
        body = respond text (calculateMatch text (default [] (scriptWindow req)))
                 (default 0%Z (currentIndex req))
                 (default (6 # 10) (threshold req)))).
Proof.
  unfold transcribe. intros H.
  destruct (hasFile req); simpl in H; [|discriminate].
  destruct recognised as [text|]; [|discriminate].
  exists text. split; [done|]. split; [done|].
  destruct (String.eqb_spec (JS.trim text) EmptyString) as [E|E];
    injection H as <-; [left|right]; done.
Qed.

Lemma respond_index text result windowStart th :
  absoluteMatchedIndex (respond text result windowStart th) =
    match matchedIndex result with
    | Some m => if Qle_bool th (score result)
                then Some (windowStart + Z.of_nat m)%Z else None
    | None => None
    end.
Proof.
  unfold respond; simpl. destruct (matchedIndex result); [|done].
  destruct (Qle_bool th (score result)); done.
Qed.

(** C1 (as stated) fails: the pipeline does not answer [matchedIndex = 1]
    and does not move the tracker to [2]. *)
Lemma end_to_end_claimed_indices_fail :
  ¬ (∃ body,
        transcribe (buildRequest (loaded demoScript)) (Some "hello world")
          = Ok200 body
        ∧ absoluteMatchedIndex body = Some 1%Z
        ∧ state body = RUNNING
        ∧ currentWordIndex
            (processAudioChunk (loaded demoScript) (Some "hello world")) = 2%Z).
Proof. intros (body & _ & _ & _ & H). vm_compute in H. discriminate. Qed.

(** C1 (amended): for the script Hello world this is a test, with the
    tracker at index 0, the window holds all six words; the transcript
    "hello world" at threshold 0.6 scores 1 at candidate start 0, the
    response carries the absolute matchedIndex 0 and the state RUNNING, and
    the tracker moves to index 1, in state RUNNING. *)
Theorem end_to_end_hello_world :
  let st := loaded demoScript in
  let result := calculateMatch "hello world" demoScript in
  buildRequest st
    = mkRequest true (Some demoScript) (Some 0%Z) (Some (6 # 10))
  ∧ tokenize "hello world" = ["hello"; "world"]
  ∧ score result == 1 ∧ matchedIndex result = Some 0%nat
  ∧ transcribe (buildRequest st) (Some "hello world")
      = Ok200 (respond "hello world" result 0 (6 # 10))
  ∧ absoluteMatchedIndex (respond "hello world" result 0 (6 # 10)) = Some 0%Z
  ∧ state (respond "hello world" result 0 (6 # 10)) = RUNNING
  ∧ currentWordIndex (processAudioChunk st (Some "hello world")) = 1%Z
  ∧ status (processAudioChunk st (Some "hello world")) = RUNNING.
Proof. vm_compute. repeat split; reflexivity. Qed.

(** C2: applying a match result.  When the score reaches the threshold
    (equality included) and the relative matchedIndex is not null, the
    tracker moves to [windowStart + matchedIndex + 1] and becomes RUNNING;
    in every other case (score below the threshold, null matchedIndex, or an
    empty transcript) it becomes PAUSED and keeps its index. *)
Theorem applyMatch_transitions (st : AppState) (text : string)
    (result : MatchResult) (windowStart : Z) (th : Q) :
  let st' := handleReply st (Ok200 (respond text result windowStart th)) in
  (∀ m, (th <= score result)%Q → matchedIndex result = Some m →
        currentWordIndex st' = (windowStart + Z.of_nat m + 1)%Z
        ∧ status st' = RUNNING)
  ∧ (¬ (th <= score result)%Q ∨ matchedIndex result = None →
        status st' = PAUSED ∧ currentWordIndex st' = currentWordIndex st)
  ∧ (∀ req empty, hasFile req = true → JS.trim empty = EmptyString →
        let st'' := handleReply st (transcribe req (Some empty)) in
        status st'' = PAUSED ∧ currentWordIndex st'' = currentWordIndex st).
Proof.
  cbn zeta. unfold handleReply, respond; cbn [state absoluteMatchedIndex].
  split; [|split].
  - intros m Hle Hm. apply Qle_bool_iff in Hle. rewrite Hle, Hm.
    destruct (decide (RUNNING = RUNNING)); [done|congruence].
  - intros [Hlt | Hnone].
    + destruct (Qle_bool th (score result)) eqn:E.
      * apply Qle_bool_iff in E. contradiction.
      * done.
    + rewrite Hnone. destruct (Qle_bool th (score result)); done.
  - intros req empty Hfile Hempty. unfold transcribe.
    rewrite Hfile, Hempty. done.
Qed.

Lemma applyMatch_transitions_witness :
  let st := mkApp PAUSED demoScript 4 true in
  let result := mkMatch (6 # 10) (Some 1%nat) in
  ((6 # 10) <= score result)%Q ∧ matchedIndex result = Some 1%nat
  ∧ currentWordIndex
      (handleReply st (Ok200 (respond "is a" result 3 (6 # 10)))) = 5%Z
  ∧ status (handleReply st (Ok200 (respond "is a" result 3 (6 # 10)))) = RUNNING.
Proof.
  cbn zeta.
  assert (Hle : ((6 # 10) <= score (mkMatch (6 # 10) (Some 1%nat)))%Q)
    by (apply Qle_bool_iff; reflexivity).
  split; [exact Hle|]. split; [reflexivity|].
  exact (proj1 (applyMatch_transitions (mkApp PAUSED demoScript 4 true) "is a"
                  (mkMatch (6 # 10) (Some 1%nat)) 3 (6 # 10))
               1%nat Hle eq_refl).
Defined.

(** C7: in a successful response the absolute matchedIndex is null whenever
    the state is PAUSED or the transcript was empty; a non-null matchedIndex
    comes with the state RUNNING only. *)
Theorem paused_or_empty_has_null_index (req : Request)
    (recognised : option string) (body : Response) :
  transcribe req recognised = Ok200 body →
  (state body = PAUSED → absoluteMatchedIndex body = None)
  ∧ (∀ text, recognised = Some text →
       JS.trim text = EmptyString ∨ tokenize text = [] →
       absoluteMatchedIndex body = None)
  ∧ (absoluteMatchedIndex body ≠ None → state body = RUNNING).
Proof.
  intros H. apply transcribe_ok_inv in H as (text & -> & _ & [[Ht ->] | [Ht ->]]).
  - repeat split; done.
  - rewrite respond_index. unfold respond; cbn [state].
    split; [|split].
    + destruct (Qle_bool _ _); [discriminate|]. by destruct (matchedIndex _).
    + intros ? [= <-] [Hempty | Hnil]; [done|].
      unfold calculateMatch. rewrite Hnil. done.
    + destruct (Qle_bool _ _); [done|]. by destruct (matchedIndex _).
Qed.

Lemma paused_or_empty_has_null_index_witness :
  let req := mkRequest true (Some demoScript) (Some 0%Z) (Some (6 # 10)) in
  let body := mkResponse "good morning" 0 None PAUSED in
  transcribe req (Some "good morning") = Ok200 body
  ∧ (state body = PAUSED → absoluteMatchedIndex body = None).
Proof.
  cbn zeta.
  assert (H : transcribe (mkRequest true (Some demoScript) (Some 0%Z) (Some (6 # 10)))
                (Some "good morning")
              = Ok200 (mkResponse "good morning" 0 None PAUSED))
    by (vm_compute; reflexivity).
  split; [exact H|].
  exact (proj1 (paused_or_empty_has_null_index _ _ _ H)).
Defined.

(** C10: the confidence of a response to a non-empty transcript is the
    score that [calculateMatch] computes for the transcript against the
    script window of the request, and it is 0 for an empty transcript. *)
Theorem confidence_is_match_score (req : Request) (text : string) :
  hasFile req = true →
  ∃ body, transcribe req (Some text) = Ok200 body
    ∧ confidence body =
        if String.eqb (JS.trim text) EmptyString then 0%Q
        else score (calculateMatch text (default [] (scriptWindow req))).
Proof.
  intros Hfile. unfold transcribe. rewrite Hfile; cbn [negb].
  destruct (String.eqb (JS.trim text) EmptyString); eexists; split; reflexivity.
Qed.

Lemma confidence_is_match_score_witness :
  hasFile (buildRequest (loaded demoScript)) = true
  ∧ ∃ body, transcribe (buildRequest (loaded demoScript)) (Some "hello world")
              = Ok200 body
      ∧ confidence body =
          if String.eqb (JS.trim "hello world") EmptyString then 0%Q
          else score (calculateMatch "hello world"
                        (default [] (scriptWindow (buildRequest (loaded demoScript))))).
Proof.
  split; [reflexivity|].
  exact (confidence_is_match_score (buildRequest (loaded demoScript))
           "hello world" eq_refl).
Defined.

(** C8 (as stated) fails: a jump beyond the script is not clamped. *)
Lemma jump_is_not_clamped :
  ¬ (∀ (index : Z) (st : AppState),
        (0 <= currentWordIndex (jumpToWord index st)
           <= Z.of_nat (length (scriptWords st)))%Z).
Proof.
  intros H. specialize (H 100%Z (loaded demoScript)).
  vm_compute in H. destruct H as [_ H]. apply H. reflexivity.
Qed.

(** C8 (amended): [jumpToWord index] sets the current index to [index] as
    it is given, in any state, without clamping, and changes nothing else:
    not the status, the script or the recording flag, and in the event loop
    not the requests in flight, whatever they are.  The new index lies in
    [0, scriptLength] exactly when [index] does. *)
Theorem jumpToWord_sets_index (index : Z) (st : AppState) :
  currentWordIndex (jumpToWord index st) = index
  ∧ status (jumpToWord index st) = status st
  ∧ scriptWords (jumpToWord index st) = scriptWords st
  ∧ isRecording (jumpToWord index st) = isRecording st
  ∧ ((0 <= currentWordIndex (jumpToWord index st)
        <= Z.of_nat (length (scriptWords st)))%Z
     ↔ (0 <= index <= Z.of_nat (length (scriptWords st)))%Z)
  ∧ ∀ w : World,
      step w (WordClicked index)
      = Some (mkWorld (jumpToWord index (app w)) (inflight w) (nextSeq w)
                      (applied w)).
Proof. repeat split; cbn in *; lia. Qed.

(** ** The matcher *)

Section Matcher.
Variable scriptWords : list string.

Lemma inject_nat_nonneg (n : nat) : (0 <= inject_Z (Z.of_nat n))%Q.
Proof. unfold Qle; simpl. lia. Qed.

Lemma inject_nat_succ (n : nat) :
  (inject_Z (Z.of_nat (S n)) == inject_Z (Z.of_nat n) + 1)%Q.
Proof. rewrite Nat2Z.inj_succ. unfold Z.succ. by rewrite inject_Z_plus. Qed.

(** One transcript token earns at most one unit of credit, and never
    takes credit away. *)
Lemma match_token_credit t position matchCount :
  (matchCount <= snd (match_token scriptWords t position matchCount)
     <= matchCount + 1)%Q.
Proof.
  unfold match_token.
  repeat match goal with
         | |- context [if ?b then _ else _] => destruct b
         end; cbn [snd]; lra.
Qed.

Lemma walk_credit tokens : ∀ position matchCount,
  (matchCount <= snd (walk scriptWords tokens position matchCount)
     <= matchCount + inject_Z (Z.of_nat (length tokens)))%Q.
Proof.
  induction tokens as [|t rest IH]; intros position matchCount.
  - cbn [walk snd length]. change (inject_Z (Z.of_nat 0)) with 0%Q. lra.
  - cbn [walk]. pose proof (inject_nat_nonneg (length rest)) as Hn.
    pose proof (inject_nat_succ (length rest)) as Hs. cbn [length].
    destruct (position <? length scriptWords)%nat.
    + pose proof (match_token_credit t position matchCount) as Ht.
      destruct (match_token scriptWords t position matchCount) as [p' c'].
      cbn [snd] in Ht. specialize (IH p' c'). lra.
    + cbn [snd]. lra.
Qed.

Lemma candidate_score_bounds tokens i :
  tokens ≠ [] → (0 <= candidate_score scriptWords tokens i <= 1)%Q.
Proof.
  intros Hne. unfold candidate_score.
  pose proof (walk_credit tokens i 0) as Hw.
  assert (Hpos : (0 < inject_Z (Z.of_nat (length tokens)))%Q).
  { destruct tokens; [done|]. unfold Qlt; simpl. lia. }
  split.
  - apply Qle_shift_div_l; [done|]. lra.
  - apply Qle_shift_div_r; [done|]. lra.
Qed.

Lemma Qgtb_lt a b : Qgtb a b = true ↔ (b < a)%Q.
Proof.
  unfold Qgtb. rewrite (Qgt_alt a b).
  destruct (a ?= b)%Q; split; congruence.
Qed.

Lemma Qgtb_le a b : Qgtb a b = false ↔ (a <= b)%Q.
Proof.
  split.
  - intros H. apply Qnot_lt_le. intros Hlt. apply Qgtb_lt in Hlt. congruence.
  - intros H. destruct (Qgtb a b) eqn:E; [|done].
    apply Qgtb_lt in E. lra.
Qed.

Lemma scan_cons tokens i rest best :
  scan scriptWords tokens (i :: rest) best
  = scan scriptWords tokens rest (keep_best scriptWords tokens best i).
Proof. reflexivity. Qed.

(** The scan returns the pair it started from, or the score and the
    position of a candidate that beats the starting score. *)
Lemma scan_cases tokens starts : ∀ best,
  scan scriptWords tokens starts best = best
  ∨ ∃ i, i ∈ starts
      ∧ scan scriptWords tokens starts best
          = (candidate_score scriptWords tokens i, Some i)
      ∧ (fst best < candidate_score scriptWords tokens i)%Q.
Proof.
  induction starts as [|i rest IH]; intros best; [by left|].
  rewrite scan_cons. unfold keep_best.
  destruct (Qgtb (candidate_score scriptWords tokens i) (fst best)) eqn:E.
  - apply Qgtb_lt in E. right.
    destruct (IH (candidate_score scriptWords tokens i, Some i))
      as [-> | (k & Hk & -> & Hlt)].
    + exists i. split; [set_solver|done].
    + exists k. cbn [fst] in Hlt. split; [set_solver|]. split; [done|lra].
  - destruct (IH best) as [-> | (k & Hk & -> & Hlt)]; [by left|].
    right. exists k. split; [set_solver|done].
Qed.

(** The returned score is at least the starting score and at least the
    score of every candidate. *)
Lemma scan_max tokens starts : ∀ best,
  (fst best <= fst (scan scriptWords tokens starts best))%Q
  ∧ ∀ i, i ∈ starts →
      (candidate_score scriptWords tokens i
         <= fst (scan scriptWords tokens starts best))%Q.
Proof.
  induction starts as [|i rest IH]; intros best.
  - cbn. split; [lra|]. intros i Hi. set_solver.
  - rewrite scan_cons.
    destruct (IH (keep_best scriptWords tokens best i)) as [Hb Hall].
    assert (Hk : (fst best <= fst (keep_best scriptWords tokens best i))%Q
                 ∧ (candidate_score scriptWords tokens i
                      <= fst (keep_best scriptWords tokens best i))%Q).
    { unfold keep_best.
      destruct (Qgtb (candidate_score scriptWords tokens i) (fst best)) eqn:E.
      - apply Qgtb_lt in E. cbn [fst]. lra.
      - apply Qgtb_le in E. lra. }
    split; [lra|]. intros k Hk'.
    apply elem_of_cons in Hk' as [-> | Hin]; [lra | by apply Hall].
Qed.

Lemma match_tokens_nonempty tokens :
  tokens ≠ [] →
  match_tokens tokens scriptWords =
    mkMatch (fst (scan scriptWords tokens (seq 0 (length scriptWords)) (0%Q, None)))
            (snd (scan scriptWords tokens (seq 0 (length scriptWords)) (0%Q, None))).
Proof.
  intros Hne. unfold match_tokens. destruct tokens; [done|]. cbn [length Nat.eqb].
  by destruct (scan _ _ _ _).
Qed.

Lemma match_tokens_score_bounds tokens :
  (0 <= score (match_tokens tokens scriptWords) <= 1)%Q.
Proof.
  destruct (decide (tokens = [])) as [-> | Hne]; [cbn; lra|].
  rewrite match_tokens_nonempty by done. cbn [score].
  destruct (scan_cases tokens (seq 0 (length scriptWords)) (0%Q, None))
    as [-> | (i & _ & -> & _)]; cbn [fst]; [lra|].
  by apply candidate_score_bounds.
Qed.

(** What a null and a non-null [matchedIndex] mean. *)
Lemma match_tokens_index tokens :
  tokens ≠ [] →
  (matchedIndex (match_tokens tokens scriptWords) = None
     ↔ ∀ i, (i < length scriptWords)%nat →
            (candidate_score scriptWords tokens i == 0)%Q)
  ∧ (∀ i, matchedIndex (match_tokens tokens scriptWords) = Some i →
       (i < length scriptWords)%nat
       ∧ score (match_tokens tokens scriptWords)
           = candidate_score scriptWords tokens i
       ∧ (0 < score (match_tokens tokens scriptWords))%Q).
Proof.
  intros Hne. rewrite match_tokens_nonempty by done.
  cbn [matchedIndex score].
  pose proof (scan_max tokens (seq 0 (length scriptWords)) (0%Q, None))
    as [_ Hmax].
  destruct (scan_cases tokens (seq 0 (length scriptWords)) (0%Q, None))
    as [Heq | (k & Hk & Heq & Hlt)]; rewrite Heq in *; cbn [fst snd] in *.
  - split.
    + split; [|done]. intros _ i Hi.
      pose proof (candidate_score_bounds tokens i Hne).
      specialize (Hmax i). rewrite elem_of_seq in Hmax.
      apply Qle_antisym; [apply Hmax; lia | lra].
    + intros i [=].
  - apply elem_of_seq in Hk. split.
    + split; [done|]. intros Hall. exfalso.
      assert (Hz := Hall k ltac:(lia)). lra.
    + intros i [= <-]. split; [lia|]. split; [done|lra].
Qed.

End Matcher.

(** The cursor after one transcript token: two further in the skip case,
    one further otherwise, except that on the last word of the window a
    token without exact or substring match leaves it in place. *)
Lemma match_token_cursor (scriptWords : list string) (t : string)
    (position : nat) (matchCount : Q) :
  let r := match_token scriptWords t position matchCount in
  (fst r = (position + 2)%nat ∧ snd r = (matchCount + (8 # 10))%Q
     ∧ (position + 1 < length scriptWords)%nat)
  ∨ (fst r = (position + 1)%nat
     ∧ (snd r = (matchCount + 1)%Q ∨ snd r = (matchCount + (1 # 2))%Q
        ∨ (snd r = matchCount ∧ (position + 1 < length scriptWords)%nat)))
  ∨ (fst r = position ∧ snd r = matchCount
     ∧ (length scriptWords <= position + 1)%nat).
Proof.
  cbn zeta. unfold match_token.
  destruct (String.eqb _ t); [right; left; cbn; auto|].
  destruct (JS.includes _ t || JS.includes t _); [right; left; cbn; auto|].
  destruct (Nat.ltb_spec (position + 1) (length scriptWords)) as [Hlt | Hge].
  - destruct (String.eqb _ t); cbn; [left | right; left]; auto.
  - right; right. cbn. auto.
Qed.

Lemma match_token_advances_before_last (scriptWords : list string)
    (t : string) (position : nat) (matchCount : Q) :
  (position + 1 < length scriptWords)%nat →
  (position < fst (match_token scriptWords t position matchCount))%nat.
Proof.
  intros Hlt.
  destruct (match_token_cursor scriptWords t position matchCount)
    as [(-> & _) | [(-> & _) | (_ & _ & Hge)]]; lia.
Qed.

(** C4 (the code departs from it): with the cursor on the only, hence
    last, word of the window ["test"], the transcript token "foo" earns no
    credit and leaves the cursor at 0; the walk then compares the next
    token "test" with the same window word, and the candidate scores 1/2. *)
Theorem last_word_mismatch_keeps_cursor :
  (0 < length ["test"])%nat
  ∧ match_token ["test"] "foo" 0 0 = (0%nat, 0%Q)
  ∧ fst (walk ["test"] ["foo"; "test"] 0 0) = 1%nat
  ∧ (snd (walk ["test"] ["foo"; "test"] 0 0) == 1)%Q
  ∧ (score (calculateMatch "foo test" ["test"]) == 1 # 2)%Q
  ∧ matchedIndex (calculateMatch "foo test" ["test"]) = Some 0%nat.
Proof. vm_compute. repeat split; reflexivity. Qed.

(** C6: the score of [calculateMatch] lies in [0, 1] for every transcript
    and window; the credit of a walk never exceeds the number of transcript
    tokens, so nothing has to be clamped; an empty transcript scores 0. *)
Theorem score_in_unit_interval (transcript : string) (scriptWords : list string) :
  (0 <= score (calculateMatch transcript scriptWords) <= 1)%Q
  ∧ (∀ i, (0 <= snd (walk scriptWords (tokenize transcript) i 0)
             <= inject_Z (Z.of_nat (length (tokenize transcript))))%Q)
  ∧ (tokenize transcript = [] →
       calculateMatch transcript scriptWords = mkMatch 0 None).
Proof.
  split; [apply match_tokens_score_bounds|]. split.
  - intros i. pose proof (walk_credit scriptWords (tokenize transcript) i 0). lra.
  - intros Hnil. unfold calculateMatch. rewrite Hnil. reflexivity.
Qed.

Lemma score_in_unit_interval_witness :
  tokenize " ... " = []
  ∧ calculateMatch " ... " demoScript = mkMatch 0 None.
Proof.
  split; [reflexivity|].
  exact (proj2 (proj2 (score_in_unit_interval " ... " demoScript)) eq_refl).
Defined.

(** C3 (as stated) fails: a transcript that shares nothing with a
    non-empty window gets a null matchedIndex. *)
Lemma nonempty_window_may_give_null_index :
  ¬ (∀ (transcript : string) (scriptWords : list string),
        tokenize transcript ≠ [] → scriptWords ≠ [] →
        matchedIndex (calculateMatch transcript scriptWords) ≠ None).
Proof.
  intros H. apply (H "xyz" ["hello"]); [discriminate | discriminate |].
  vm_compute. reflexivity.
Qed.

(** C3 (amended): for a non-empty transcript token sequence the returned
    matchedIndex is null exactly when no candidate start of the window
    scores above 0, which includes the empty window; a non-null matchedIndex
    is a candidate start of the window, the returned score is that
    candidate's score and it is above 0.  An empty window always yields
    score 0 and a null matchedIndex. *)
Theorem null_index_iff_no_credit (transcript : string) (scriptWords : list string) :
  (tokenize transcript ≠ [] →
     (matchedIndex (calculateMatch transcript scriptWords) = None
        ↔ ∀ i, (i < length scriptWords)%nat →
               (candidate_score scriptWords (tokenize transcript) i == 0)%Q)
     ∧ (∀ i, matchedIndex (calculateMatch transcript scriptWords) = Some i →
          (i < length scriptWords)%nat
          ∧ score (calculateMatch transcript scriptWords)
              = candidate_score scriptWords (tokenize transcript) i
          ∧ (0 < score (calculateMatch transcript scriptWords))%Q))
  ∧ calculateMatch transcript [] = mkMatch 0 None.
Proof.
  split.
  - intros Hne. by apply match_tokens_index.
  - unfold calculateMatch, match_tokens. by destruct (tokenize transcript).
Qed.

Lemma null_index_iff_no_credit_witness :
  tokenize "the quick fox" ≠ []
  ∧ ∀ i, matchedIndex (calculateMatch "the quick fox"
                         ["the"; "quick"; "brown"; "fox"]) = Some i →
      (i < 4)%nat
      ∧ score (calculateMatch "the quick fox" ["the"; "quick"; "brown"; "fox"])
          = candidate_score ["the"; "quick"; "brown"; "fox"]
              (tokenize "the quick fox") i
      ∧ (0 < score (calculateMatch "the quick fox"
                      ["the"; "quick"; "brown"; "fox"]))%Q.
Proof.
  assert (Hne : tokenize "the quick fox" ≠ []) by (vm_compute; discriminate).
  split; [exact Hne|].
  exact (proj2 (proj1 (null_index_iff_no_credit "the quick fox"
                         ["the"; "quick"; "brown"; "fox"]) Hne)).
Defined.

(** ** The tracker under the event loop *)

Lemma transcribe_is_ok req recognised :
  hasFile req = true →
  is_ok (transcribe req recognised)
  = match recognised with Some _ => true | None => false end.
Proof.
  intros Hfile. unfold transcribe. rewrite Hfile; cbn [negb].
  destruct recognised as [text|]; [|done].
  by destruct (String.eqb (JS.trim text) EmptyString).
Qed.

(** A response moves the tracker beyond the window start of its own
    request, or leaves the index alone. *)
Lemma handleReply_index st req recognised c :
  currentIndex req = Some c →
  let st' := handleReply st (transcribe req recognised) in
  currentWordIndex st' = currentWordIndex st ∨ (c < currentWordIndex st')%Z.
Proof.
  intros Hc. cbn zeta.
  destruct (transcribe req recognised) as [body| |] eqn:E; [|by left..].
  apply transcribe_ok_inv in E as (text & _ & _ & [[_ ->] | [_ ->]]);
    [by left|].
  unfold handleReply. rewrite respond_index. rewrite Hc; cbn [default].
  unfold respond; cbn [state].
  destruct (Qle_bool _ _); [|by left].
  destruct (matchedIndex _) as [m|]; [|by left].
  right. cbn. lia.
Qed.

Lemma step_keeps_files w e w' :
  map_Forall (λ _ req, hasFile req = true) (inflight w) →
  step w e = Some w' →
  map_Forall (λ _ req, hasFile req = true) (inflight w').
Proof.
  intros Hall Hstep. destruct e; cbn in Hstep.
  1-4: by injection Hstep as <-.
  - injection Hstep as <-. cbn. by apply map_Forall_insert_2.
  - destruct (inflight w !! seq) as [req|]; [|done].
    injection Hstep as <-. cbn. by apply map_Forall_delete.
Qed.

Lemma step_applied w e w' :
  map_Forall (λ _ req, hasFile req = true) (inflight w) →
  step w e = Some w' →
  applied w' = (applied w ++ answered [e])%list.
Proof.
  intros Hall Hstep. destruct e; cbn in Hstep.
  1-5: injection Hstep as <-; cbn; by rewrite app_nil_r.
  destruct (inflight w !! seq) as [req|] eqn:Hreq; [|done].
  injection Hstep as <-. cbn [applied].
  rewrite transcribe_is_ok by exact (map_Forall_lookup_1 _ _ _ _ Hall Hreq).
  destruct recognised; cbn; [done | by rewrite app_nil_r].
Qed.

Lemma answered_cons e events :
  answered (e :: events) = (answered [e] ++ answered events)%list.
Proof. destruct e as [| | | | |seq [text|]]; reflexivity. Qed.

Example overtaking_trace :
  (applied <$> run (boot demoScript) overtaking) = Some [1; 0]%nat
  ∧ (currentWordIndex ∘ app <$> run (boot demoScript) (take 4 overtaking))
      = Some 3%Z
  ∧ (currentWordIndex ∘ app <$> run (boot demoScript) overtaking) = Some 1%Z.
Proof. vm_compute. repeat split; reflexivity. Qed.

Example overlapping_trace :
  (currentWordIndex ∘ app <$> run (boot demoScript) overlapping) = Some 5%Z
  ∧ (currentWordIndex ∘ app <$>
       run (boot demoScript)
         (overlapping ++ [ResponseArrived 1 (Some "hello world")])%list)
      = Some 1%Z.
Proof. vm_compute. repeat split; reflexivity. Qed.

(** C5 (as stated) fails: with two requests in flight, applying the second
    result moves the tracker from index 5 back to index 1. *)
Lemma stale_result_moves_index_back :
  ¬ (∀ (script : list string) (events : list Event) (w w' : World)
       (seq : nat) (recognised : option string),
        run (boot script) events = Some w →
        step w (ResponseArrived seq recognised) = Some w' →
        (currentWordIndex (app w) <= currentWordIndex (app w'))%Z).
Proof.
  intros H.
  destruct (run (boot demoScript) overlapping) as [w|] eqn:Hrun;
    [|vm_compute in Hrun; discriminate].
  destruct (step w (ResponseArrived 1 (Some "hello world"))) as [w'|] eqn:Hstep;
    [|vm_compute in Hrun; injection Hrun as <-; vm_compute in Hstep; discriminate].
  specialize (H _ _ _ _ _ _ Hrun Hstep).
  vm_compute in Hrun. injection Hrun as <-.
  vm_compute in Hstep. injection Hstep as <-.
  vm_compute in H. apply H. reflexivity.
Qed.

(** C5 (amended): a response either leaves the current index alone or
    moves it beyond the window start that was sent with its request; so
    applying a result never decreases the current index when that window
    start is not below the index the tracker has when the response arrives.
    Start, stop and the capture of a chunk keep the index; reset sets it to
    0 and a jump sets it to the clicked index. *)
Theorem index_after_event (w : World) (e : Event) (w' : World) :
  step w e = Some w' →
  match e with
  | ResponseArrived seq _ =>
      ∀ req c, inflight w !! seq = Some req → currentIndex req = Some c →
        (currentWordIndex (app w') = currentWordIndex (app w)
         ∨ (c < currentWordIndex (app w'))%Z)
        ∧ ((currentWordIndex (app w) <= c)%Z →
           (currentWordIndex (app w) <= currentWordIndex (app w'))%Z)
  | StartClicked | StopClicked | ChunkCaptured =>
      currentWordIndex (app w') = currentWordIndex (app w)
  | ResetClicked => currentWordIndex (app w') = 0%Z
  | WordClicked index => currentWordIndex (app w') = index
  end.
Proof.
  intros Hstep. destruct e; cbn in Hstep.
  1-5: by injection Hstep as <-.
  intros req c Hreq Hc. rewrite Hreq in Hstep. injection Hstep as <-.
  cbn [app].
  pose proof (handleReply_index (app w) req recognised c Hc) as Hidx.
  cbn zeta in Hidx. split; [done|]. lia.
Qed.

Lemma index_after_event_witness :
  ∃ w w',
    run (boot demoScript) [StartClicked; ChunkCaptured] = Some w
    ∧ step w (ResponseArrived 0 (Some "hello world")) = Some w'
    ∧ inflight w !! 0%nat = Some (buildRequest (app w))
    ∧ (currentWordIndex (app w) <= currentWordIndex (app w'))%Z.
Proof.
  destruct (run (boot demoScript) [StartClicked; ChunkCaptured])
    as [w|] eqn:Hrun; [|vm_compute in Hrun; discriminate].
  assert (Hw : w = mkWorld (mkApp RUNNING demoScript 0 true)
                     {[ 0%nat := buildRequest (mkApp RUNNING demoScript 0 true) ]}
                     1 [])
    by (cbn in Hrun; injection Hrun as <-; reflexivity).
  assert (Hreq : inflight w !! 0%nat = Some (buildRequest (app w)))
    by (rewrite Hw; cbn [inflight app]; apply lookup_insert_eq).
  destruct (step w (ResponseArrived 0 (Some "hello world"))) as [w'|] eqn:Hstep;
    [|cbn in Hstep; rewrite Hreq in Hstep; discriminate].
  exists w, w'.
  split; [reflexivity|]. split; [exact Hstep|]. split; [exact Hreq|].
  exact (proj2 (index_after_event w (ResponseArrived 0 (Some "hello world")) w'
                  Hstep (buildRequest (app w)) (currentWordIndex (app w))
                  Hreq eq_refl)
               (Z.le_refl _)).
Defined.

(** C9 (as stated) fails: the response of the chunk captured second is
    applied while the first is still in flight, and the first is applied
    after it. *)
Lemma later_chunk_applied_first :
  ¬ (∀ (script : list string) (events : list Event) (w : World),
        run (boot script) events = Some w → StronglySorted le (applied w)).
Proof.
  intros H.
  destruct (run (boot demoScript) overtaking) as [w|] eqn:Hrun;
    [|vm_compute in Hrun; discriminate].
  specialize (H _ _ _ Hrun).
  vm_compute in Hrun. injection Hrun as <-. cbn [applied] in H.
  apply StronglySorted_inv in H as [_ H].
  apply Forall_cons in H as [H _]. lia.
Qed.

(** C9 (amended): match results are applied in completion order.  The
    client numbers no chunk and keeps no buffer: the response of any chunk
    in flight is applied at once when it arrives, whatever else is in
    flight, and the chunks whose results have been applied are the answered
    ones, in the order in which their responses arrived. *)
Theorem results_applied_in_arrival_order (events : list Event) :
  ∀ w w' : World,
    map_Forall (λ _ req, hasFile req = true) (inflight w) →
    run w events = Some w' →
    applied w' = (applied w ++ answered events)%list
    ∧ ∀ seq req recognised, inflight w' !! seq = Some req →
        ∃ w'', step w' (ResponseArrived seq recognised) = Some w''
          ∧ app w'' = handleReply (app w') (transcribe req recognised).
Proof.
  induction events as [|e rest IH]; intros w w' Hall Hrun.
  - injection Hrun as <-. split; [cbn; by rewrite app_nil_r|].
    intros seq req recognised Hreq. cbn. rewrite Hreq. by eexists.
  - cbn [run] in Hrun. destruct (step w e) as [w1|] eqn:Hstep; [|done].
    destruct (IH w1 w' (step_keeps_files _ _ _ Hall Hstep) Hrun) as [Happ Hnext].
    split; [|done].
    rewrite Happ, (step_applied _ _ _ Hall Hstep), (answered_cons e rest).
    by rewrite app_assoc.
Qed.

Lemma results_applied_in_arrival_order_witness :
  map_Forall (λ _ req, hasFile req = true) (inflight (boot demoScript))
  ∧ ∃ w', run (boot demoScript) overtaking = Some w'
      ∧ applied w' = ([] ++ [1; 0])%list%nat.
Proof.
  split; [apply map_Forall_empty|].
  destruct (run (boot demoScript) overtaking) as [w'|] eqn:Hrun;
    [|vm_compute in Hrun; discriminate].
  exists w'. split; [reflexivity|].
  exact (proj1 (results_applied_in_arrival_order overtaking (boot demoScript) w'
                  (map_Forall_empty _) Hrun)).
Defined.

(** ** The normaliser *)

Lemma lower_char_idem c : JS.lower_char (JS.lower_char c) = JS.lower_char c.
Proof. destruct c as [[] [] [] [] [] [] [] []]; reflexivity. Qed.

Lemma lower_char_space c : JS.is_space (JS.lower_char c) = JS.is_space c.
Proof. destruct c as [[] [] [] [] [] [] [] []]; reflexivity. Qed.

Lemma lower_char_word c :
  JS.is_word (JS.lower_char c) = true → is_token_char (JS.lower_char c) = true.
Proof. destruct c as [[] [] [] [] [] [] [] []]; vm_compute; done. Qed.

Lemma token_char_facts c :
  is_token_char c = true →
  JS.lower_char c = c ∧ JS.is_word c = true ∧ JS.is_space c = false
  ∧ Ascii.eqb c " " = false.
Proof. destruct c as [[] [] [] [] [] [] [] []]; vm_compute; done. Qed.

Lemma normal_char_cases c :
  is_normal_char c = true →
  (is_token_char c = true ∧ JS.is_space c = false)
  ∨ (c = " "%char ∧ JS.is_space c = true).
Proof. destruct c as [[] [] [] [] [] [] [] []]; vm_compute; auto. Qed.

Lemma normal_char_fixed c :
  is_normal_char c = true →
  JS.lower_char c = c ∧ (JS.is_word c || JS.is_space c) = true.
Proof. destruct c as [[] [] [] [] [] [] [] []]; vm_compute; done. Qed.

Lemma toLowerCase_idem s : JS.toLowerCase (JS.toLowerCase s) = JS.toLowerCase s.
Proof. induction s as [|c r IH]; cbn; [done|]. by rewrite lower_char_idem, IH. Qed.

(** After the first three stages only token characters and single spaces
    are left. *)
Lemma stages_normal_chars s : ∀ b,
  string_forall is_normal_char
    (JS.collapse_spaces b (JS.strip_punctuation (JS.toLowerCase s))) = true.
Proof.
  induction s as [|c r IH]; intros b; cbn; [done|].
  destruct (JS.is_word (JS.lower_char c)) eqn:Ew; cbn.
  - apply lower_char_word in Ew as Et.
    destruct (token_char_facts _ Et) as (_ & _ & Es & _). rewrite Es. cbn.
    unfold is_normal_char at 1. rewrite Et. cbn. apply IH.
  - destruct (JS.is_space (JS.lower_char c)) eqn:Es; cbn; [|apply IH].
    rewrite Es. destruct b; cbn; apply IH.
Qed.

Lemma collapse_single_spaced s : ∀ b,
  single_spaced b (JS.collapse_spaces b s) = true.
Proof.
  induction s as [|c r IH]; intros b; cbn; [done|].
  destruct (JS.is_space c) eqn:Es.
  - destruct b; cbn; [apply IH|]. apply (IH true).
  - cbn. rewrite Es. apply IH.
Qed.

Lemma trimStart_forall p s :
  string_forall p s = true → string_forall p (JS.trimStart s) = true.
Proof.
  induction s as [|c r IH]; cbn; [done|]. intros H.
  apply andb_true_iff in H as [Hc Hr].
  destruct (JS.is_space c); [by apply IH|]. cbn. by rewrite Hc, Hr.
Qed.

Lemma trimEnd_forall p s :
  string_forall p s = true → string_forall p (JS.trimEnd s) = true.
Proof.
  induction s as [|c r IH]; [done|]. intros H. cbn [JS.trimEnd].
  destruct (JS.all_space (String c r)); [done|].
  cbn in *. apply andb_true_iff in H as [Hc Hr]. by rewrite Hc, IH.
Qed.

Lemma trimStart_single_spaced s : ∀ b,
  single_spaced b s = true → single_spaced false (JS.trimStart s) = true.
Proof.
  induction s as [|c r IH]; intros b; cbn; [done|].
  destruct (JS.is_space c) eqn:Es; cbn.
  - intros H. apply andb_true_iff in H as [_ H]. by apply (IH true).
  - rewrite Es. done.
Qed.

Lemma trimEnd_single_spaced s : ∀ b,
  single_spaced b s = true → single_spaced b (JS.trimEnd s) = true.
Proof.
  induction s as [|c r IH]; intros b; [done|]. cbn [JS.trimEnd].
  destruct (JS.all_space (String c r)); [done|]. cbn.
  destruct (JS.is_space c).
  - intros H. apply andb_true_iff in H as [-> H]. cbn. by apply IH.
  - apply IH.
Qed.

Lemma all_space_trimEnd s : JS.all_space (JS.trimEnd s) = JS.all_space s.
Proof.
  induction s as [|c r IH]; [done|]. cbn [JS.trimEnd].
  destruct (JS.all_space (String c r)) eqn:E; [done|].
  cbn in *. rewrite IH. exact E.
Qed.

Lemma trimEnd_idem s : JS.trimEnd (JS.trimEnd s) = JS.trimEnd s.
Proof.
  induction s as [|c r IH]; [done|]. cbn [JS.trimEnd].
  destruct (JS.all_space (String c r)) eqn:E; [done|].
  cbn [JS.trimEnd].
  assert (E' : JS.all_space (String c (JS.trimEnd r)) = false)
    by (cbn in *; by rewrite all_space_trimEnd).
  by rewrite E', IH.
Qed.

(** [trimStart] has nothing to remove from a result of [trim]. *)
Lemma trimStart_trim s : JS.trimStart (JS.trim s) = JS.trim s.
Proof.
  unfold JS.trim. induction s as [|c r IH]; [done|]. cbn [JS.trimStart].
  destruct (JS.is_space c) eqn:Es; [exact IH|].
  cbn [JS.trimEnd].
  assert (E : JS.all_space (String c r) = false) by (cbn; by rewrite Es).
  rewrite E. cbn. by rewrite Es.
Qed.

Lemma trim_idem s : JS.trim (JS.trim s) = JS.trim s.
Proof.
  unfold JS.trim at 1. rewrite trimStart_trim. unfold JS.trim.
  apply trimEnd_idem.
Qed.

Lemma normal_toLowerCase s :
  string_forall is_normal_char s = true → JS.toLowerCase s = s.
Proof.
  induction s as [|c r IH]; cbn; [done|]. intros H.
  apply andb_true_iff in H as [Hc Hr].
  destruct (normal_char_fixed c Hc) as [-> _]. by rewrite IH.
Qed.

Lemma normal_strip_punctuation s :
  string_forall is_normal_char s = true → JS.strip_punctuation s = s.
Proof.
  induction s as [|c r IH]; cbn; [done|]. intros H.
  apply andb_true_iff in H as [Hc Hr].
  destruct (normal_char_fixed c Hc) as [_ ->]. by rewrite IH.
Qed.

Lemma normal_collapse_spaces s : ∀ b,
  string_forall is_normal_char s = true → single_spaced b s = true →
  JS.collapse_spaces b s = s.
Proof.
  induction s as [|c r IH]; intros b; cbn; [done|]. intros H Hs.
  apply andb_true_iff in H as [Hc Hr].
  destruct (normal_char_cases c Hc) as [[_ Es] | [-> Es]]; rewrite Es in *.
  - by rewrite IH.
  - apply andb_true_iff in Hs as [Hb Hs]. destruct b; [done|].
    by rewrite IH.
Qed.

Lemma normalizeText_normal s :
  string_forall is_normal_char (normalizeText s) = true
  ∧ single_spaced false (normalizeText s) = true.
Proof.
  unfold normalizeText, JS.trim. split.
  - apply trimEnd_forall, trimStart_forall, stages_normal_chars.
  - apply trimEnd_single_spaced, (trimStart_single_spaced _ false),
      collapse_single_spaced.
Qed.

Lemma normalizeText_idem s : normalizeText (normalizeText s) = normalizeText s.
Proof.
  destruct (normalizeText_normal s) as [Hn Hs].
  unfold normalizeText at 1.
  rewrite (normal_toLowerCase _ Hn), (normal_strip_punctuation _ Hn),
    (normal_collapse_spaces _ false Hn Hs).
  unfold normalizeText. apply trim_idem.
Qed.

(** X1: [normalizeText] is idempotent, so normalising a transcript
    beforehand does not change its tokens. *)
Theorem normalizeText_idempotent (text : string) :
  normalizeText (normalizeText text) = normalizeText text
  ∧ tokenize (normalizeText text) = tokenize text.
Proof.
  split; [apply normalizeText_idem|].
  unfold tokenize. by rewrite normalizeText_idem.
Qed.

Lemma split_normal_tokens s :
  string_forall is_normal_char s = true →
  Forall (λ w, string_forall is_token_char w = true) (JS.split " " s).
Proof.
  induction s as [|c r IH]; cbn; [by repeat constructor|]. intros H.
  apply andb_true_iff in H as [Hc Hr]. specialize (IH Hr).
  destruct (Ascii.eqb_spec c " ") as [-> | Hne]; [by constructor|].
  destruct (normal_char_cases c Hc) as [[Ht _] | [-> _]]; [|done].
  destruct (JS.split " " r) as [|w ws]; constructor.
  - cbn. by rewrite Ht.
  - constructor.
  - cbn. apply Forall_cons in IH as [-> _]. by rewrite Ht.
  - by apply Forall_cons in IH as [_ ?].
Qed.

(** X2: every token of a transcript is a non-empty string over [a-z0-9_]:
    no upper case, no punctuation and no white space survives. *)
Theorem tokens_are_lowercase_words (transcript : string) :
  Forall (λ t, t ≠ EmptyString ∧ string_forall is_token_char t = true)
         (tokenize transcript).
Proof.
  apply Forall_forall. intros t Ht. unfold tokenize in Ht.
  apply list_elem_of_filter in Ht as [Hlen Hin]. split.
  - intros ->. cbn in Hlen. discriminate.
  - destruct (normalizeText_normal transcript) as [Hn _].
    pose proof (split_normal_tokens _ Hn) as Hall.
    rewrite Forall_forall in Hall. by apply Hall.
Qed.

Lemma match_token_ext sw1 sw2 :
  (∀ p, normalizeText (word_at sw1 p) = normalizeText (word_at sw2 p)) →
  length sw1 = length sw2 →
  ∀ t p c, match_token sw1 t p c = match_token sw2 t p c.
Proof.
  intros Hw Hlen t p c. unfold match_token.
  by rewrite !Hw, Hlen.
Qed.

Lemma walk_ext sw1 sw2 :
  (∀ p, normalizeText (word_at sw1 p) = normalizeText (word_at sw2 p)) →
  length sw1 = length sw2 →
  ∀ tokens p c, walk sw1 tokens p c = walk sw2 tokens p c.
Proof.
  intros Hw Hlen tokens. induction tokens as [|t rest IH]; intros p c; [done|].
  cbn [walk]. rewrite Hlen, (match_token_ext sw1 sw2 Hw Hlen).
  destruct (p <? length sw2)%nat; [|done].
  destruct (match_token sw2 t p c). apply IH.
Qed.

Lemma match_tokens_ext sw1 sw2 tokens :
  (∀ p, normalizeText (word_at sw1 p) = normalizeText (word_at sw2 p)) →
  length sw1 = length sw2 →
  match_tokens tokens sw1 = match_tokens tokens sw2.
Proof.
  intros Hw Hlen. unfold match_tokens. rewrite Hlen.
  assert (Hscan : ∀ starts best,
             scan sw1 tokens starts best = scan sw2 tokens starts best).
  { induction starts as [|i rest IH]; intros best; [done|].
    rewrite !scan_cons. unfold keep_best, candidate_score.
    rewrite (walk_ext sw1 sw2 Hw Hlen). apply IH. }
  by rewrite Hscan.
Qed.

Lemma word_at_fmap (f : string → string) sw p :
  (∀ w, normalizeText (f w) = normalizeText w) →
  normalizeText (word_at (f <$> sw) p) = normalizeText (word_at sw p).
Proof.
  intros Hf. unfold word_at. rewrite list_lookup_fmap.
  destruct (sw !! p); cbn; [apply Hf | done].
Qed.

Lemma normalizeText_toLowerCase s :
  normalizeText (JS.toLowerCase s) = normalizeText s.
Proof. unfold normalizeText. by rewrite toLowerCase_idem. Qed.

(** X3: matching ignores letter case and punctuation on both sides: the
    result is the same for the lower-cased or normalised transcript and for
    the lower-cased or normalised script words. *)
Theorem matching_ignores_case_and_punctuation (transcript : string)
    (scriptWords : list string) :
  calculateMatch (JS.toLowerCase transcript) scriptWords
    = calculateMatch transcript scriptWords
  ∧ calculateMatch (normalizeText transcript) scriptWords
    = calculateMatch transcript scriptWords
  ∧ calculateMatch transcript (JS.toLowerCase <$> scriptWords)
    = calculateMatch transcript scriptWords
  ∧ calculateMatch transcript (normalizeText <$> scriptWords)
    = calculateMatch transcript scriptWords.
Proof.
  unfold calculateMatch. repeat split.
  - unfold tokenize. by rewrite normalizeText_toLowerCase.
  - unfold tokenize. by rewrite normalizeText_idem.
  - apply match_tokens_ext; [|by rewrite length_fmap].
    intros p. apply word_at_fmap, normalizeText_toLowerCase.
  - apply match_tokens_ext; [|by rewrite length_fmap].
    intros p. apply word_at_fmap, normalizeText_idem.
Qed.

Lemma lower_char_not_word c :
  JS.is_word c = false → JS.is_word (JS.lower_char c) = false.
Proof. destruct c as [[] [] [] [] [] [] [] []]; vm_compute; done. Qed.

Lemma strip_only_spaces s :
  string_forall (λ c, negb (JS.is_word c)) s = true →
  JS.all_space (JS.strip_punctuation (JS.toLowerCase s)) = true.
Proof.
  induction s as [|c r IH]; cbn; [done|]. intros H.
  apply andb_true_iff in H as [Hc Hr]. apply negb_true_iff in Hc.
  rewrite (lower_char_not_word c Hc). cbn.
  destruct (JS.is_space (JS.lower_char c)) eqn:Es; cbn; [|by apply IH].
  rewrite Es. by apply IH.
Qed.

Lemma collapse_all_space s : ∀ b,
  JS.all_space s = true → JS.all_space (JS.collapse_spaces b s) = true.
Proof.
  induction s as [|c r IH]; intros b; cbn; [done|]. intros H.
  apply andb_true_iff in H as [-> Hr]. destruct b; cbn; by apply IH.
Qed.

Lemma trim_all_space s : JS.all_space s = true → JS.trim s = EmptyString.
Proof.
  unfold JS.trim. induction s as [|c r IH]; cbn; [done|]. intros H.
  apply andb_true_iff in H as [-> Hr]. by apply IH.
Qed.

Lemma tokenize_no_word_char text :
  string_forall (λ c, negb (JS.is_word c)) text = true → tokenize text = [].
Proof.
  intros H. unfold tokenize, normalizeText.
  by rewrite (trim_all_space _ (collapse_all_space _ false (strip_only_spaces _ H))).
Qed.

(** X4: a transcript without a letter, digit or underscore has no token;
    the handler answers it with confidence 0 and a null matchedIndex, and
    with the state PAUSED whenever the threshold is positive. *)
Theorem wordless_transcript_pauses (req : Request) (text : string) :
  hasFile req = true →
  string_forall (λ c, negb (JS.is_word c)) text = true →
  tokenize text = []
  ∧ ∃ body, transcribe req (Some text) = Ok200 body
      ∧ confidence body = 0%Q ∧ absoluteMatchedIndex body = None
      ∧ ((0 < default (6 # 10) (threshold req))%Q → state body = PAUSED).
Proof.
  intros Hfile Hw. pose proof (tokenize_no_word_char text Hw) as Hnil.
  split; [exact Hnil|]. unfold transcribe. rewrite Hfile; cbn [negb].
  destruct (String.eqb (JS.trim text) EmptyString);
    eexists; (split; [reflexivity|]).
  - done.
  - unfold calculateMatch. rewrite Hnil. cbn.
    repeat split. intros Hpos.
    destruct (Qle_bool _ 0) eqn:E; [|done].
    apply Qle_bool_iff in E. lra.
Qed.

Lemma wordless_transcript_pauses_witness :
  hasFile (buildRequest (loaded demoScript)) = true
  ∧ string_forall (λ c, negb (JS.is_word c)) "... ?!" = true
  ∧ tokenize "... ?!" = [].
Proof.
  split; [reflexivity|]. split; [reflexivity|].
  exact (proj1 (wordless_transcript_pauses (buildRequest (loaded demoScript))
                  "... ?!" eq_refl eq_refl)).
Defined.

(** ** Which candidate the matcher returns *)

(** The scan keeps what it started from when no candidate beats it;
    otherwise it returns the first of the candidates with the greatest
    score. *)
Lemma scan_split (scriptWords tokens : list string) (starts : list nat) :
  ∀ best,
    (scan scriptWords tokens starts best = best
     ∧ ∀ j, j ∈ starts →
         (candidate_score scriptWords tokens j <= fst best)%Q)
    ∨ ∃ l1 i l2,
        starts = (l1 ++ i :: l2)%list
        ∧ scan scriptWords tokens starts best
            = (candidate_score scriptWords tokens i, Some i)
        ∧ (fst best < candidate_score scriptWords tokens i)%Q
        ∧ (∀ j, j ∈ l1 →
             (candidate_score scriptWords tokens j
                < candidate_score scriptWords tokens i)%Q)
        ∧ (∀ j, j ∈ l2 →
             (candidate_score scriptWords tokens j
                <= candidate_score scriptWords tokens i)%Q).
Proof.
  induction starts as [|k rest IH]; intros best.
  - left. split; [done|]. intros j Hj. set_solver.
  - rewrite scan_cons. unfold keep_best.
    destruct (Qgtb (candidate_score scriptWords tokens k) (fst best)) eqn:E.
    + apply Qgtb_lt in E. right.
      destruct (IH (candidate_score scriptWords tokens k, Some k))
        as [[-> Hall] | (l1 & i & l2 & -> & -> & Hlt & H1 & H2)];
        cbn [fst] in *.
      * exists [], k, rest. repeat split; [done| |done].
        intros j Hj. set_solver.
      * exists (k :: l1), i, l2. repeat split; [lra| |done].
        intros j Hj. apply elem_of_cons in Hj as [-> | Hj]; [done|by apply H1].
    + apply Qgtb_le in E.
      destruct (IH best)
        as [[-> Hall] | (l1 & i & l2 & -> & -> & Hlt & H1 & H2)].
      * left. split; [done|]. intros j Hj.
        apply elem_of_cons in Hj as [-> | Hj]; [done|by apply Hall].
      * right. exists (k :: l1), i, l2. repeat split; [done| |done].
        intros j Hj. apply elem_of_cons in Hj as [-> | Hj]; [lra|by apply H1].
Qed.

Lemma first_best_candidate (transcript : string)
    (scriptWords : list string) (i : nat) :
  matchedIndex (calculateMatch transcript scriptWords) = Some i →
  (score (calculateMatch transcript scriptWords)
     = candidate_score scriptWords (tokenize transcript) i)
  ∧ (∀ j, (j < i)%nat →
       (candidate_score scriptWords (tokenize transcript) j
          < candidate_score scriptWords (tokenize transcript) i)%Q)
  ∧ (∀ j, (j < length scriptWords)%nat →
       (candidate_score scriptWords (tokenize transcript) j
          <= candidate_score scriptWords (tokenize transcript) i)%Q).
Proof.
  unfold calculateMatch. set (tokens := tokenize transcript). intros Hi.
  destruct (decide (tokens = [])) as [E | Hne];
    [unfold match_tokens in Hi; rewrite E in Hi; discriminate|].
  rewrite match_tokens_nonempty in * by done. cbn [matchedIndex score] in *.
  destruct (scan_split scriptWords tokens (seq 0 (length scriptWords)) (0%Q, None))
    as [[Heq _] | (l1 & k & l2 & Hsplit & Heq & Hlt & H1 & H2)];
    rewrite Heq in Hi; cbn [snd] in Hi; [discriminate|].
  injection Hi as ->. rewrite Heq. cbn [fst].
  assert (Hlen : length l1 = i).
  { assert (Hk : seq 0 (length scriptWords) !! length l1 = Some i)
      by (rewrite Hsplit; apply list_lookup_middle; done).
    apply lookup_seq in Hk as [-> _]. done. }
  split; [done|]. split.
  - intros j Hj. apply H1.
    assert (Hin : (j < length scriptWords)%nat).
    { apply (f_equal length) in Hsplit.
      rewrite length_seq, length_app in Hsplit. cbn in Hsplit. lia. }
    pose proof (lookup_seq_lt 0 (length scriptWords) j Hin) as Hj'.
    rewrite Hsplit, lookup_app_l in Hj' by lia.
    apply list_elem_of_lookup. eauto.
  - intros j Hj.
    assert (Hin : j ∈ seq 0 (length scriptWords)) by (apply elem_of_seq; lia).
    rewrite Hsplit in Hin. apply elem_of_app in Hin as [Hin | Hin].
    + apply Qlt_le_weak. by apply H1.
    + apply elem_of_cons in Hin as [-> | Hin]; [lra|by apply H2].
Qed.


Lemma scan_of_split (score_of : nat → Q) (starts : list nat) :
  ∀ best,
    (scan_of score_of starts best = best
     ∧ ∀ j, j ∈ starts → (score_of j <= fst best)%Q)
    ∨ ∃ l1 i l2,
        starts = (l1 ++ i :: l2)%list
        ∧ scan_of score_of starts best = (score_of i, Some i)
        ∧ (fst best < score_of i)%Q
        ∧ (∀ j, j ∈ l1 → (score_of j < score_of i)%Q)
        ∧ (∀ j, j ∈ l2 → (score_of j <= score_of i)%Q).
Proof.
  induction starts as [|k rest IH]; intros best.
  - left. split; [done|]. intros j Hj. set_solver.
  - change (scan_of score_of (k :: rest) best)
      with (scan_of score_of rest (keep_best_of score_of best k)).
    unfold keep_best_of.
    destruct (Qgtb (score_of k) (fst best)) eqn:E.
    + apply Qgtb_lt in E. right.
      destruct (IH (score_of k, Some k))
        as [[-> Hall] | (l1 & i & l2 & -> & -> & Hlt & H1 & H2)];
        cbn [fst] in *.
      * exists [], k, rest. repeat split; [done| |done].
        intros j Hj. set_solver.
      * exists (k :: l1), i, l2. repeat split; [lra| |done].
        intros j Hj. apply elem_of_cons in Hj as [-> | Hj]; [done|by apply H1].
    + apply Qgtb_le in E.
      destruct (IH best)
        as [[-> Hall] | (l1 & i & l2 & -> & -> & Hlt & H1 & H2)].
      * left. split; [done|]. intros j Hj.
        apply elem_of_cons in Hj as [-> | Hj]; [done|by apply Hall].
      * right. exists (k :: l1), i, l2. repeat split; [done| |done].
        intros j Hj. apply elem_of_cons in Hj as [-> | Hj]; [lra|by apply H1].
Qed.

Lemma scan_is_scan_of (scriptWords tokens : list string) starts best :
  scan scriptWords tokens starts best
  = scan_of (candidate_score scriptWords tokens) starts best.
Proof. reflexivity. Qed.

(** X5: ties go to the earliest start, whatever numbers the candidates
    score.  Run on any scores, the outer loop returns null with score 0
    when no candidate scores above 0; otherwise it returns the score and the
    position of a candidate that scores above 0, at least as much as every
    candidate and strictly more than every earlier one.  The matcher is this
    loop run on the scores of its walks. *)
Theorem first_best_candidate_wins (score_of : nat → Q) (n : nat) :
  (snd (scan_of score_of (seq 0 n) (0%Q, None)) = None →
     fst (scan_of score_of (seq 0 n) (0%Q, None)) = 0%Q
     ∧ ∀ j, (j < n)%nat → (score_of j <= 0)%Q)
  ∧ (∀ i, snd (scan_of score_of (seq 0 n) (0%Q, None)) = Some i →
       (i < n)%nat
       ∧ fst (scan_of score_of (seq 0 n) (0%Q, None)) = score_of i
       ∧ (0 < score_of i)%Q
       ∧ (∀ j, (j < i)%nat → (score_of j < score_of i)%Q)
       ∧ (∀ j, (j < n)%nat → (score_of j <= score_of i)%Q))
  ∧ (∀ scriptWords tokens, tokens ≠ [] →
       match_tokens tokens scriptWords
       = mkMatch
           (fst (scan_of (candidate_score scriptWords tokens)
                   (seq 0 (length scriptWords)) (0%Q, None)))
           (snd (scan_of (candidate_score scriptWords tokens)
                   (seq 0 (length scriptWords)) (0%Q, None)))).
Proof.
  split; [|split].
  - intros Hnone.
    destruct (scan_of_split score_of (seq 0 n) (0%Q, None))
      as [[Heq Hall] | (l1 & k & l2 & _ & Heq & _)];
      rewrite Heq in *; [|done].
    split; [done|]. intros j Hj. apply Hall, elem_of_seq. lia.
  - intros i Hi.
    destruct (scan_of_split score_of (seq 0 n) (0%Q, None))
      as [[Heq _] | (l1 & k & l2 & Hsplit & Heq & Hlt & H1 & H2)];
      rewrite Heq in *; cbn [fst snd] in *; [done|].
    injection Hi as ->.
    assert (Hlen : length l1 = i ∧ (i < n)%nat).
    { assert (Hk : seq 0 n !! length l1 = Some i)
        by (rewrite Hsplit; apply list_lookup_middle; done).
      apply lookup_seq in Hk as [-> ?]. done. }
    destruct Hlen as [Hlen Hin]. repeat split; [done|done| |].
    + intros j Hj. apply H1.
      pose proof (lookup_seq_lt 0 n j ltac:(lia)) as Hj'.
      rewrite Hsplit, lookup_app_l in Hj' by lia.
      apply list_elem_of_lookup. eauto.
    + intros j Hj.
      assert (Hjn : j ∈ seq 0 n) by (apply elem_of_seq; lia).
      rewrite Hsplit in Hjn. apply elem_of_app in Hjn as [Hjn | Hjn].
      * apply Qlt_le_weak. by apply H1.
      * apply elem_of_cons in Hjn as [-> | Hjn]; [lra|by apply H2].
  - intros scriptWords tokens Hne.
    rewrite match_tokens_nonempty by done. by rewrite scan_is_scan_of.
Qed.

Lemma first_best_candidate_wins_witness :
  snd (scan_of (λ j, if (j =? 1)%nat then (1 # 2)%Q else 1%Q) (seq 0 3) (0%Q, None))
    = Some 0%nat
  ∧ (0 < 3)%nat
  ∧ ∀ j, (j < 3)%nat →
      ((if (j =? 1)%nat then (1 # 2)%Q else 1%Q)
         <= (if (0 =? 1)%nat then (1 # 2)%Q else 1%Q))%Q.
Proof.
  split; [reflexivity|].
  destruct (proj1 (proj2 (first_best_candidate_wins
                            (λ j, if (j =? 1)%nat then (1 # 2)%Q else 1%Q) 3))
              0%nat eq_refl) as (Hlt & _ & _ & _ & Hmax).
  split; [exact Hlt | exact Hmax].
Defined.

(** ** Reading the script word for word *)

Lemma walk_exact (scriptWords : list string) (tokens : list string) :
  ∀ i c,
    (i + length tokens <= length scriptWords)%nat →
    (∀ k t, tokens !! k = Some t →
       normalizeText (word_at scriptWords (i + k)) = t) →
    fst (walk scriptWords tokens i c) = (i + length tokens)%nat
    ∧ (snd (walk scriptWords tokens i c)
         == c + inject_Z (Z.of_nat (length tokens)))%Q.
Proof.
  induction tokens as [|t rest IH]; intros i c Hlen Hw.
  - cbn [walk fst snd length]. change (inject_Z (Z.of_nat 0)) with 0%Q.
    split; [lia|lra].
  - cbn [walk]. cbn [length] in Hlen.
    destruct (Nat.ltb_spec i (length scriptWords)) as [_ | ?]; [|lia].
    assert (H0 : normalizeText (word_at scriptWords i) = t).
    { pose proof (Hw 0%nat t eq_refl) as H. by rewrite Nat.add_0_r in H. }
    unfold match_token. rewrite H0, String.eqb_refl.
    destruct (IH (i + 1)%nat (c + 1)%Q) as [Hp Hc]; [lia| |].
    + intros k t' Hk. replace (i + 1 + k)%nat with (i + S k)%nat by lia.
      by apply Hw.
    + split; [cbn [length]; lia|].
      rewrite Hc. cbn [length]. rewrite inject_nat_succ. lra.
Qed.

(** X6: when the tokens of the transcript are the normalised forms of
    consecutive words of the window, starting at position [i], the match
    scores 1 and the returned matchedIndex is at most [i]. *)
Theorem verbatim_reading_scores_one (transcript : string)
    (scriptWords : list string) (i n : nat) :
  tokenize transcript ≠ [] →
  tokenize transcript = normalizeText <$> take n (drop i scriptWords) →
  (score (calculateMatch transcript scriptWords) == 1)%Q
  ∧ ∃ k, matchedIndex (calculateMatch transcript scriptWords) = Some k
      ∧ (k <= i)%nat.
Proof.
  set (tokens := tokenize transcript). intros Hne Hrun.
  assert (Hlen : (i + length tokens <= length scriptWords)%nat
                 ∧ (0 < length tokens)%nat).
  { assert (H0 : (0 < length tokens)%nat) by (destruct tokens; [done|cbn; lia]).
    rewrite Hrun, length_fmap, length_take, length_drop in *. lia. }
  assert (Hword : ∀ k t, tokens !! k = Some t →
             normalizeText (word_at scriptWords (i + k)) = t).
  { intros k t Hk. rewrite Hrun, list_lookup_fmap in Hk.
    destruct (take n (drop i scriptWords) !! k) as [w|] eqn:Ew; [|done].
    injection Hk as <-. apply lookup_take_Some in Ew as [Ew _].
    rewrite lookup_drop in Ew. unfold word_at. by rewrite Ew. }
  destruct (walk_exact scriptWords tokens i 0 (proj1 Hlen) Hword) as [_ Hc].
  assert (Hi : (candidate_score scriptWords tokens i == 1)%Q).
  { unfold candidate_score. rewrite Hc. field.
    intros H0. destruct Hlen as [_ Hpos].
    unfold Qeq in H0. cbn in H0. lia. }
  pose proof (match_tokens_score_bounds scriptWords tokens) as Hb.
  destruct (matchedIndex (calculateMatch transcript scriptWords)) as [k|] eqn:Ek.
  - destruct (first_best_candidate transcript scriptWords k Ek)
      as (Hs & Hfirst & Hmax).
    fold tokens in Hs, Hfirst, Hmax.
    unfold calculateMatch in *. fold tokens in Hs |- *.
    specialize (Hmax i ltac:(lia)). rewrite Hs in *. split; [lra|].
    exists k. split; [done|].
    destruct (Nat.le_gt_cases k i) as [?|Hgt]; [done|].
    specialize (Hfirst i Hgt). lra.
  - exfalso. unfold calculateMatch in Ek. fold tokens in Ek.
    pose proof (proj1 (proj1 (match_tokens_index scriptWords tokens Hne))
                  Ek i ltac:(lia)) as Hz.
    lra.
Qed.

Lemma verbatim_reading_scores_one_witness :
  tokenize "This is." ≠ []
  ∧ tokenize "This is." = normalizeText <$> take 2 (drop 2 demoScript)
  ∧ (score (calculateMatch "This is." demoScript) == 1)%Q.
Proof.
  assert (Hne : tokenize "This is." ≠ []) by (vm_compute; discriminate).
  assert (Hrun : tokenize "This is." = normalizeText <$> take 2 (drop 2 demoScript))
    by (vm_compute; reflexivity).
  split; [exact Hne|]. split; [exact Hrun|].
  exact (proj1 (verbatim_reading_scores_one "This is." demoScript 2 2 Hne Hrun)).
Defined.

Lemma walk_cursor (scriptWords tokens : list string) :
  ∀ (position : nat) (matchCount : Q),
    (position <= fst (walk scriptWords tokens position matchCount))%nat
    ∧ (fst (walk scriptWords tokens position matchCount)
         <= position + 2 * length tokens)%nat
    ∧ (fst (walk scriptWords tokens position matchCount)
         <= Nat.max position (length scriptWords))%nat.
Proof.
  induction tokens as [|t rest IH]; intros position matchCount.
  - cbn. lia.
  - cbn [walk length].
    destruct (Nat.ltb_spec position (length scriptWords)) as [Hlt | Hge];
      [|cbn; lia].
    pose proof (match_token_cursor scriptWords t position matchCount) as Hc.
    cbn zeta in Hc.
    destruct (match_token scriptWords t position matchCount) as [p' c'].
    cbn [fst snd] in Hc. specialize (IH p' c').
    destruct Hc as [(-> & _ & ?) | [(-> & _) | (-> & _ & _)]]; lia.
Qed.

(** X7: the cursor of a walk never moves backward, moves at most two
    places for each transcript token, and never passes the end of the
    window when it starts inside it. *)
Theorem walk_cursor_bounds (scriptWords tokens : list string) :
  ∀ (position : nat) (matchCount : Q),
    (position <= fst (walk scriptWords tokens position matchCount))%nat
    ∧ (fst (walk scriptWords tokens position matchCount)
         <= position + 2 * length tokens)%nat
    ∧ (fst (walk scriptWords tokens position matchCount)
         <= Nat.max position (length scriptWords))%nat.
Proof. apply walk_cursor. Qed.

(** ** Responses and the window they were computed for *)

Lemma match_tokens_none_score (tokens scriptWords : list string) :
  matchedIndex (match_tokens tokens scriptWords) = None →
  score (match_tokens tokens scriptWords) = 0%Q.
Proof.
  destruct (decide (tokens = [])) as [-> | Hne]; [done|].
  rewrite match_tokens_nonempty by done. cbn [matchedIndex score].
  destruct (scan_cases scriptWords tokens (seq 0 (length scriptWords)) (0%Q, None))
    as [-> | (i & _ & -> & _)]; done.
Qed.

Lemma match_tokens_some_lt (tokens scriptWords : list string) (m : nat) :
  matchedIndex (match_tokens tokens scriptWords) = Some m →
  (m < length scriptWords)%nat.
Proof.
  destruct (decide (tokens = [])) as [-> | Hne]; [done|].
  intros H. by apply (proj2 (match_tokens_index scriptWords tokens Hne)) in H as [? _].
Qed.

(** With a positive threshold a response in state RUNNING carries an
    index inside the window of its request. *)
Lemma running_response (req : Request) (recognised : option string)
    (body : Response) :
  transcribe req recognised = Ok200 body →
  (0 < default (6 # 10) (threshold req))%Q →
  state body = RUNNING →
  ∃ m, absoluteMatchedIndex body
         = Some (default 0%Z (currentIndex req) + Z.of_nat m)%Z
    ∧ (m < length (default [] (scriptWindow req)))%nat
    ∧ (default (6 # 10) (threshold req) <= confidence body)%Q.
Proof.
  intros H Hpos Hrun.
  apply transcribe_ok_inv in H as (text & -> & _ & [[_ ->] | [_ ->]]); [done|].
  rewrite respond_index. unfold respond in *; cbn [state confidence] in *.
  destruct (Qle_bool _ _) eqn:E; [|done]. apply Qle_bool_iff in E.
  unfold calculateMatch in *.
  destruct (matchedIndex (match_tokens _ _)) as [m|] eqn:Em.
  - exists m. split; [done|]. split; [|done].
    by apply match_tokens_some_lt in Em.
  - apply match_tokens_none_score in Em. rewrite Em in E. lra.
Qed.

(** On a form whose fields are values and whose window holds strings
    only, the handler is [transcribe]. *)
Lemma transcribeForm_of_request (req : Request) (recognised : option string) :
  transcribeForm
    (mkForm (hasFile req) (field_of ((λ l : list string, Some <$> l) <$> scriptWindow req))
            (field_of (currentIndex req)) (field_of (threshold req)))
    recognised
  = transcribe req recognised.
Proof.
  destruct req as [f w c th]. unfold transcribeForm, transcribe.
  cbn [file scriptWindowField currentIndexField thresholdField
       hasFile scriptWindow currentIndex threshold].
  destruct f; [|done]. cbn [negb].
  assert (Hw : ∃ l, field_value [] (field_of ((λ l : list string, Some <$> l) <$> w))
                 = Some (Some <$> l)
                 ∧ default [] w = l).
  { destruct w as [l|]; cbn; [by exists l|by exists []]. }
  destruct Hw as (l & -> & Hl). rewrite Hl.
  destruct recognised as [text|]; [|done].
  destruct (String.eqb (JS.trim text) EmptyString); [done|].
  rewrite mapM_fmap_Some by done. cbn [default from_option id].
  assert (Hth : field_value (6 # 10) (field_of th) = Some (default (6 # 10) th))
    by (by destruct th).
  assert (Hc : field_value 0%Z (field_of c) = Some (default 0%Z c))
    by (by destruct c).
  rewrite Hth, Hc. unfold respond.
  by destruct (tokenize text).
Qed.



(** ** One chunk at a time *)

Lemma slice_window_length {A} (l : list A) (c n : Z) :
  (0 <= n)%Z → (0 <= c)%Z →
  Z.of_nat (length (slice l c (Z.min (c + n) (Z.of_nat (length l)))))
  = Z.max 0 (Z.min (c + n) (Z.of_nat (length l)) - c).
Proof.
  intros Hn Hc. unfold slice, slice_bound.
  destruct (Z.ltb_spec c 0) as [?|_]; [lia|].
  destruct (Z.ltb_spec (Z.min (c + n) (Z.of_nat (length l))) 0) as [?|_]; [lia|].
  rewrite length_take, length_drop. lia.
Qed.

(** X9: when nothing else runs between the request and the response of a
    chunk, and the index is within the script, [processAudioChunk] never
    decreases the index, advances it by at most the 30 words of the window,
    never moves it past the end of the script, and never changes the
    script; the index moves only together with the state RUNNING. *)
Theorem chunk_advances_within_window (st : AppState)
    (recognised : option string) :
  (0 <= currentWordIndex st <= Z.of_nat (length (scriptWords st)))%Z →
  let st' := processAudioChunk st recognised in
  (currentWordIndex st <= currentWordIndex st'
     <= Z.min (currentWordIndex st + 30) (Z.of_nat (length (scriptWords st))))%Z
  ∧ scriptWords st' = scriptWords st
  ∧ (currentWordIndex st' = currentWordIndex st ∨ status st' = RUNNING).
Proof.
  intros Hin. cbn zeta. unfold processAudioChunk.
  destruct (transcribe (buildRequest st) recognised) as [body| |] eqn:E;
    cbn [handleReply]; [|split; [lia|auto]..].
  destruct (state body) eqn:Es; [split; [cbn; lia|auto]| |split; [cbn; lia|auto]].
  destruct (running_response _ _ _ E ltac:(reflexivity) Es) as (m & -> & Hm & _).
  cbn [buildRequest scriptWindow currentIndex default] in *.
  pose proof (slice_window_length (scriptWords st) (currentWordIndex st)
                CONFIG.matchingWindow ltac:(done) ltac:(lia)) as Hlen.
  unfold CONFIG.matchingWindow, id in *. cbn. split; [lia|auto].
Qed.

Lemma chunk_advances_within_window_witness :
  (0 <= currentWordIndex (loaded demoScript)
     <= Z.of_nat (length (scriptWords (loaded demoScript))))%Z
  ∧ (currentWordIndex (loaded demoScript)
       <= currentWordIndex (processAudioChunk (loaded demoScript) (Some "is a test")))%Z.
Proof.
  assert (H : (0 <= currentWordIndex (loaded demoScript)
                 <= Z.of_nat (length (scriptWords (loaded demoScript))))%Z)
    by (vm_compute; split; discriminate).
  split; [exact H|].
  exact (proj1 (proj1 (chunk_advances_within_window (loaded demoScript)
                         (Some "is a test") H))).
Defined.

(** X10: once the index has reached the end of the script the window is
    empty, and every recognised chunk, whatever was said, pauses the
    teleprompter and leaves the index where it is. *)
Theorem end_of_script_pauses (st : AppState) (text : string) :
  (Z.of_nat (length (scriptWords st)) <= currentWordIndex st)%Z →
  scriptWindow (buildRequest st) = Some []
  ∧ processAudioChunk st (Some text) = set_status PAUSED st.
Proof.
  intros Hend.
  assert (Hw : scriptWindow (buildRequest st) = Some []).
  { cbn. f_equal. unfold slice, slice_bound, CONFIG.matchingWindow.
    destruct (Z.ltb_spec (currentWordIndex st) 0) as [?|_]; [lia|].
    destruct (Z.ltb_spec (Z.min (currentWordIndex st + 30)
                            (Z.of_nat (length (scriptWords st)))) 0) as [?|_];
      [lia|].
    replace (Z.to_nat _) with 0%nat by lia. done. }
  split; [exact Hw|]. unfold processAudioChunk, transcribe.
  rewrite Hw.
  cbn [buildRequest hasFile negb default from_option id currentIndex threshold].
  destruct (String.eqb (JS.trim text) EmptyString); [done|].
  assert (Hm : calculateMatch text [] = mkMatch 0 None).
  { unfold calculateMatch, match_tokens. by destruct (tokenize text). }
  rewrite Hm. done.
Qed.

Lemma end_of_script_pauses_witness :
  (Z.of_nat (length (scriptWords (set_index 6 (loaded demoScript))))
     <= currentWordIndex (set_index 6 (loaded demoScript)))%Z
  ∧ processAudioChunk (set_index 6 (loaded demoScript)) (Some "a test")
    = set_status PAUSED (set_index 6 (loaded demoScript)).
Proof.
  assert (H : (Z.of_nat (length (scriptWords (set_index 6 (loaded demoScript))))
                 <= currentWordIndex (set_index 6 (loaded demoScript)))%Z)
    by (vm_compute; discriminate).
  split; [exact H|].
  exact (proj2 (end_of_script_pauses (set_index 6 (loaded demoScript)) "a test" H)).
Defined.

(** ** Stopping, and what stays in flight *)

Lemma handleReply_ok_status st body :
  status (handleReply st (Ok200 body)) = RUNNING
  ∨ status (handleReply st (Ok200 body)) = PAUSED.
Proof.
  cbn. destruct (state body), (absoluteMatchedIndex body); cbn; auto.
Qed.

Lemma handleReply_recording st reply :
  isRecording (handleReply st reply) = isRecording st
  ∧ scriptWords (handleReply st reply) = scriptWords st.
Proof.
  destruct reply as [body| |]; [|done..].
  cbn. by destruct (state body), (absoluteMatchedIndex body).
Qed.

(** X11: stopping does not discard the requests in flight.  A response
    that arrives after the stop button is still applied: the recording flag
    stays off, yet the status leaves IDLE for RUNNING or PAUSED. *)
Theorem late_response_revives_status (w : World) (seq : nat) (req : Request)
    (text : string) :
  inflight w !! seq = Some req → hasFile req = true →
  ∃ w', run w [StopClicked; ResponseArrived seq (Some text)] = Some w'
    ∧ isRecording (app w') = false
    ∧ (status (app w') = RUNNING ∨ status (app w') = PAUSED)
    ∧ inflight w' = delete seq (inflight w).
Proof.
  intros Hreq Hfile. cbn. rewrite Hreq. eexists. split; [reflexivity|]. cbn.
  destruct (transcribe req (Some text)) as [body| |] eqn:E.
  - split; [apply handleReply_recording|]. split; [|done].
    apply handleReply_ok_status.
  - unfold transcribe in E. rewrite Hfile in E. cbn in E.
    by destruct (String.eqb _ _).
  - unfold transcribe in E. rewrite Hfile in E. cbn in E.
    by destruct (String.eqb _ _).
Qed.

Lemma late_response_revives_status_witness :
  let w := mkWorld (mkApp RUNNING demoScript 0 true)
                   {[ 0%nat := buildRequest (mkApp RUNNING demoScript 0 true) ]}
                   1 [] in
  inflight w !! 0%nat = Some (buildRequest (mkApp RUNNING demoScript 0 true))
  ∧ ∃ w', run w [StopClicked; ResponseArrived 0 (Some "hello")] = Some w'
      ∧ isRecording (app w') = false
      ∧ (status (app w') = RUNNING ∨ status (app w') = PAUSED)
      ∧ inflight w' = delete 0%nat (inflight w).
Proof.
  cbn zeta.
  assert (H : inflight (mkWorld (mkApp RUNNING demoScript 0 true)
                 {[ 0%nat := buildRequest (mkApp RUNNING demoScript 0 true) ]}
                 1 []) !! 0%nat
              = Some (buildRequest (mkApp RUNNING demoScript 0 true)))
    by apply lookup_insert_eq.
  split; [exact H|].
  exact (late_response_revives_status _ 0%nat _ "hello" H eq_refl).
Defined.

(** Every request in flight was built from the script, at the index the
    tracker had when the chunk was captured. *)
Lemma step_keeps_script (script : list string) w e w' :
  scriptWords (app w) = script →
  map_Forall (λ _ req, ∃ c st, scriptWords st = script
                ∧ currentWordIndex st = c ∧ req = buildRequest st) (inflight w) →
  step w e = Some w' →
  scriptWords (app w') = script
  ∧ map_Forall (λ _ req, ∃ c st, scriptWords st = script
                  ∧ currentWordIndex st = c ∧ req = buildRequest st) (inflight w').
Proof.
  intros Hs Hall Hstep. destruct e; cbn in Hstep.
  1-4: by injection Hstep as <-.
  - injection Hstep as <-. cbn. split; [done|].
    apply map_Forall_insert_2; [|done]. by exists (currentWordIndex (app w)), (app w).
  - destruct (inflight w !! seq) as [req|]; [|done].
    injection Hstep as <-. cbn. split.
    + by rewrite (proj2 (handleReply_recording _ _)).
    + by apply map_Forall_delete.
Qed.

(** X12: no event of the teleprompter changes the loaded script, and every
    request in flight carries the window cut from that script at the index
    the tracker had when its chunk was captured, at most 30 words long,
    together with that index and the threshold 0.6. *)
Theorem requests_carry_window_of_capture (script : list string)
    (events : list Event) (w : World) :
  run (boot script) events = Some w →
  scriptWords (app w) = script
  ∧ map_Forall (λ _ req,
       ∃ c, currentIndex req = Some c
         ∧ scriptWindow req
             = Some (slice script c
                       (Z.min (c + 30) (Z.of_nat (length script))))
         ∧ threshold req = Some (6 # 10) ∧ hasFile req = true
         ∧ (length (default [] (scriptWindow req)) <= 30)%nat)
     (inflight w).
Proof.
  assert (Hgen : ∀ events w0 w1,
    scriptWords (app w0) = script →
    map_Forall (λ _ req, ∃ c st, scriptWords st = script
                  ∧ currentWordIndex st = c ∧ req = buildRequest st) (inflight w0) →
    run w0 events = Some w1 →
    scriptWords (app w1) = script
    ∧ map_Forall (λ _ req, ∃ c st, scriptWords st = script
                    ∧ currentWordIndex st = c ∧ req = buildRequest st) (inflight w1)).
  { clear. induction events as [|e rest IH]; intros w0 w1 Hs Hall Hrun.
    - by injection Hrun as <-.
    - cbn [run] in Hrun. destruct (step w0 e) as [w2|] eqn:Hstep; [|done].
      destruct (step_keeps_script script _ _ _ Hs Hall Hstep) as [Hs2 Hall2].
      by apply (IH w2). }
  intros Hrun.
  destruct (Hgen events (boot script) w eq_refl (map_Forall_empty _) Hrun)
    as [Hs Hall].
  split; [done|]. intros k req Hk.
  destruct (Hall k req Hk) as (c & st & Hst & Hc & ->).
  exists c. cbn. rewrite Hst, Hc. repeat split.
  unfold slice. rewrite length_take. unfold slice_bound, CONFIG.matchingWindow.
  repeat match goal with |- context [Z.ltb ?a ?b] => destruct (Z.ltb_spec a b) end;
    lia.
Qed.

Lemma requests_carry_window_of_capture_witness :
  ∃ w, run (boot demoScript) [StartClicked; ChunkCaptured; WordClicked 4;
                              ChunkCaptured] = Some w
    ∧ scriptWords (app w) = demoScript.
Proof.
  destruct (run (boot demoScript) [StartClicked; ChunkCaptured; WordClicked 4;
                                   ChunkCaptured]) as [w|] eqn:E;
    [|vm_compute in E; discriminate].
  exists w. split; [reflexivity|].
  exact (proj1 (requests_carry_window_of_capture demoScript _ w E)).
Defined.

(** ** Loading a script *)

Lemma trim_head s :
  match JS.trim s with
  | EmptyString => True
  | String c _ => JS.is_space c = false
  end.
Proof.
  unfold JS.trim. induction s as [|c r IH]; [done|]. cbn [JS.trimStart].
  destruct (JS.is_space c) eqn:Es; [exact IH|].
  cbn [JS.trimEnd].
  assert (E : JS.all_space (String c r) = false) by (cbn; by rewrite Es).
  by rewrite E.
Qed.

Lemma split_spaces_no_space s : ∀ b,
  Forall (λ w, string_forall (λ c, negb (JS.is_space c)) w = true)
         (split_spaces b s).
Proof.
  induction s as [|c r IH]; intros b; cbn; [by repeat constructor|].
  destruct (JS.is_space c) eqn:Es.
  - destruct b; [apply IH|]. constructor; [done|apply IH].
  - specialize (IH false). destruct (split_spaces false r) as [|w ws].
    + repeat constructor. cbn. by rewrite Es.
    + apply Forall_cons in IH as [Hw Hws]. constructor; [|done].
      cbn. by rewrite Es, Hw.
Qed.

Lemma split_spaces_head c r :
  JS.is_space c = false →
  ∃ w ws, split_spaces false (String c r) = String c w :: ws.
Proof.
  intros Es. cbn. rewrite Es. destruct (split_spaces false r); eauto.
Qed.

(** X13: [loadScript] ignores a text that is empty or all white space;
    any other text yields at least one word, so the second alert (Script is
    empty) can never fire; the index goes back to 0, the status and the
    recording flag are kept, and every loaded word is non-empty and free of
    white space. *)
Theorem loadScript_words (text : string) (st : AppState) :
  (JS.trim text = EmptyString → loadScript text st = st)
  ∧ (JS.trim text ≠ EmptyString →
       scriptWords (loadScript text st) ≠ []
       ∧ currentWordIndex (loadScript text st) = 0%Z
       ∧ status (loadScript text st) = status st
       ∧ isRecording (loadScript text st) = isRecording st)
  ∧ (JS.trim text ≠ EmptyString →
       Forall (λ w, w ≠ EmptyString
                 ∧ string_forall (λ c, negb (JS.is_space c)) w = true)
              (scriptWords (loadScript text st))).
Proof.
  unfold loadScript.
  destruct (String.eqb_spec (JS.trim text) EmptyString) as [E | E];
    [repeat split; done|].
  set (words := filter _ _).
  assert (Hne : words ≠ []).
  { pose proof (trim_head text) as Hh.
    destruct (JS.trim text) as [|c r] eqn:Et; [done|].
    destruct (split_spaces_head c r Hh) as (w & ws & Hsp).
    subst words. rewrite Hsp, filter_cons_True by (cbn; done). done. }
  assert (Hlen : (length words =? 0)%nat = false)
    by (destruct words; [done|reflexivity]).
  rewrite Hlen. split; [done|]. split; [done|]. intros _. cbn.
  apply Forall_forall. intros w Hw. subst words.
  apply list_elem_of_filter in Hw as [Hpos Hin]. split.
  - intros ->. cbn in Hpos. discriminate.
  - pose proof (split_spaces_no_space (JS.trim text) false) as Hall.
    rewrite Forall_forall in Hall. by apply Hall.
Qed.

Lemma loadScript_words_witness :
  JS.trim "  Hello   world " ≠ EmptyString
  ∧ scriptWords (loadScript "  Hello   world " (loaded [])) ≠ [].
Proof.
  assert (H : JS.trim "  Hello   world " ≠ EmptyString)
    by (vm_compute; discriminate).
  split; [exact H|].
  exact (proj1 (proj1 (proj2 (loadScript_words "  Hello   world " (loaded []))) H)).
Defined.

Lemma strip_spaceless_tokens w :
  string_forall (λ c, negb (JS.is_space c)) w = true →
  string_forall is_token_char (JS.strip_punctuation (JS.toLowerCase w)) = true.
Proof.
  induction w as [|c r IH]; cbn; [done|]. intros H.
  apply andb_true_iff in H as [Hc Hr]. apply negb_true_iff in Hc.
  rewrite lower_char_space, Hc, orb_false_r.
  destruct (JS.is_word (JS.lower_char c)) eqn:Ew; [|by apply IH].
  cbn. by rewrite (lower_char_word c Ew), IH.
Qed.

Lemma token_string_fixed s :
  string_forall is_token_char s = true →
  (∀ b, JS.collapse_spaces b s = s) ∧ JS.trim s = s ∧ JS.split " " s = [s].
Proof.
  induction s as [|c r IH]; [done|]. cbn [string_forall]. intros H.
  apply andb_true_iff in H as [Hc Hr].
  destruct (IH Hr) as (Hcol & Htrim & Hsplit).
  destruct (token_char_facts c Hc) as (_ & _ & Es & Esp).
  split; [|split].
  - intros b. cbn. by rewrite Es, Hcol.
  - unfold JS.trim in *. cbn [JS.trimStart]. rewrite Es. cbn [JS.trimEnd].
    assert (E : JS.all_space (String c r) = false) by (cbn; by rewrite Es).
    rewrite E. f_equal.
    destruct r as [|c' r']; [done|]. cbn [string_forall] in Hr.
    apply andb_true_iff in Hr as [Hc' _].
    destruct (token_char_facts c' Hc') as (_ & _ & Es' & _).
    cbn [JS.trimStart] in Htrim. by rewrite Es' in Htrim.
  - cbn. by rewrite Esp, Hsplit.
Qed.

Lemma spaceless_word_tokens w :
  string_forall (λ c, negb (JS.is_space c)) w = true →
  string_forall is_token_char (normalizeText w) = true
  ∧ tokenize w
    = if String.eqb (normalizeText w) EmptyString then []
      else [normalizeText w].
Proof.
  intros H. pose proof (strip_spaceless_tokens w H) as Ht.
  destruct (token_string_fixed _ Ht) as (Hcol & Htrim & _).
  assert (Hn : normalizeText w = JS.strip_punctuation (JS.toLowerCase w))
    by (unfold normalizeText; by rewrite Hcol, Htrim).
  rewrite Hn. split; [done|]. unfold tokenize. rewrite Hn.
  destruct (token_string_fixed _ Ht) as (_ & _ & ->).
  destruct (JS.strip_punctuation (JS.toLowerCase w)); reflexivity.
Qed.

(** X14: a word of a loaded script never falls apart on the server: its
    normal form has no white space, so it is compared with a transcript
    token as one token, or as the empty string when the word has no letter,
    digit or underscore. *)
Theorem loaded_word_is_one_token (text : string) (st : AppState) (w : string) :
  JS.trim text ≠ EmptyString →
  w ∈ scriptWords (loadScript text st) →
  string_forall is_token_char (normalizeText w) = true
  ∧ tokenize w
    = if String.eqb (normalizeText w) EmptyString then []
      else [normalizeText w].
Proof.
  intros Hne Hw. apply spaceless_word_tokens.
  unfold loadScript in Hw.
  destruct (String.eqb_spec (JS.trim text) EmptyString) as [?|_]; [done|].
  assert (Hin : w ∈ filter (λ w : string, (0 <? String.length w)%nat = true)
                       (split_spaces false (JS.trim text)))
    by (destruct (length _ =? 0)%nat; exact Hw).
  apply list_elem_of_filter in Hin as [_ Hin].
  pose proof (split_spaces_no_space (JS.trim text) false) as Hall.
  rewrite Forall_forall in Hall. by apply Hall.
Qed.

Lemma loaded_word_is_one_token_witness :
  JS.trim "Don't  stop!" ≠ EmptyString
  ∧ "Don't" ∈ scriptWords (loadScript "Don't  stop!" (loaded []))
  ∧ tokenize "Don't"
    = if String.eqb (normalizeText "Don't") EmptyString then []
      else [normalizeText "Don't"].
Proof.
  assert (H1 : JS.trim "Don't  stop!" ≠ EmptyString)
    by (vm_compute; discriminate).
  assert (H2 : "Don't" ∈ scriptWords (loadScript "Don't  stop!" (loaded [])))
    by (vm_compute; apply list_elem_of_here).
  split; [exact H1|]. split; [exact H2|].
  exact (proj2 (loaded_word_is_one_token "Don't  stop!" (loaded []) "Don't" H1 H2)).
Defined.

(** ** Sessions *)

(** X15: the login gate.  A login succeeds exactly when both submitted
    fields equal the configured values, an absent field being equal to an
    unset variable; a success opens every protected route and records the
    e-mail, a failure leaves the session as it was; the middleware passes a
    request on only for an authenticated session, and otherwise answers 401
    under /api/ and redirects to the login page elsewhere. *)
Theorem login_gate (env : Auth.Env) (body : Auth.Credentials)
    (session : option Auth.Session) :
  (snd (Auth.login env body session) = true
     ↔ Auth.email body = Auth.ADMIN_EMAIL env
       ∧ Auth.password body = Auth.ADMIN_PASSWORD env)
  ∧ (snd (Auth.login env body session) = true →
       Auth.checkAuth (fst (Auth.login env body session)) = true
       ∧ (Auth.adminEmail <$> fst (Auth.login env body session))
           = Some (Auth.email body)
       ∧ ∀ path, Auth.requireAuth (fst (Auth.login env body session)) path
                 = Auth.Next)
  ∧ (snd (Auth.login env body session) = false →
       fst (Auth.login env body session) = session)
  ∧ (∀ path, Auth.requireAuth session path = Auth.Next
             ↔ Auth.checkAuth session = true)
  ∧ (∀ path, Auth.checkAuth session = false →
       Auth.requireAuth session path
       = if String.prefix "/api/" path then Auth.Unauthorized401
         else Auth.RedirectToLogin).
Proof.
  unfold Auth.login, Auth.requireAuth, Auth.checkAuth.
  split; [|split; [|split; [|split]]].
  - destruct (bool_decide_reflect (Auth.email body = Auth.ADMIN_EMAIL env)),
      (bool_decide_reflect (Auth.password body = Auth.ADMIN_PASSWORD env));
      cbn; split; try done; intros [??]; done.
  - destruct (bool_decide _ && bool_decide _); cbn; done.
  - destruct (bool_decide _ && bool_decide _); cbn; done.
  - intros path. destruct (default false _); [done|].
    destruct (String.prefix _ _); split; done.
  - intros path ->. done.
Qed.

Lemma login_gate_witness :
  let env := Auth.mkEnv (Some "admin@example.com") (Some "secret") in
  let body := Auth.mkCredentials (Some "admin@example.com") (Some "secret") in
  snd (Auth.login env body None) = true
  ∧ ∀ path, Auth.requireAuth (fst (Auth.login env body None)) path = Auth.Next.
Proof.
  cbn zeta. split; [reflexivity|].
  exact (proj2 (proj2 (proj1 (proj2
    (login_gate (Auth.mkEnv (Some "admin@example.com") (Some "secret"))
       (Auth.mkCredentials (Some "admin@example.com") (Some "secret")) None))
    eq_refl))).
Defined.

(** ** The script store *)

Lemma findIndex_Some (wanted : string) (scripts : list Admin.Script) index :
  Admin.findIndex wanted scripts = Some index ↔
  ∃ old, scripts !! index = Some old ∧ Admin.id old = wanted
    ∧ ∀ j s, scripts !! j = Some s → (j < index)%nat → Admin.id s ≠ wanted.
Proof.
  unfold Admin.findIndex. split.
  - intros H. apply fmap_Some in H as ([i old] & Hf & ->).
    apply list_find_Some in Hf. exists old. exact Hf.
  - intros (old & H). apply fmap_Some. exists (index, old).
    split; [|done]. by apply list_find_Some.
Qed.

Lemma findIndex_None (wanted : string) (scripts : list Admin.Script) :
  Admin.findIndex wanted scripts = None ↔
  ∀ s, s ∈ scripts → Admin.id s ≠ wanted.
Proof.
  unfold Admin.findIndex. rewrite fmap_None, list_find_None, Forall_forall.
  done.
Qed.

Lemma logActivity_scripts at_ action details disk :
  Admin.scriptsFile (Admin.logActivity at_ action details disk)
  = Admin.scriptsFile disk.
Proof. unfold Admin.logActivity. by destruct (Admin.activityFile disk). Qed.

(** X16: updating a script.  An id that no stored script has is answered
    404 and changes nothing on disk, the activity log included.  Otherwise
    the first script with that id gets the new title, content and update
    time and keeps its id and creation time; the store keeps its length,
    its ids and creation times, and every other script. *)
Theorem updateScript_changes_first_match (wanted updated : string)
    (logged : Admin.Stamp) (newTitle newContent : option string)
    (disk : Admin.Disk) (scripts : list Admin.Script) :
  Admin.scriptsFile disk = Some scripts →
  match snd (Admin.updateScript wanted updated logged newTitle newContent disk) with
  | Admin.NotFound404 =>
      (∀ s, s ∈ scripts → Admin.id s ≠ wanted)
      ∧ fst (Admin.updateScript wanted updated logged newTitle newContent disk)
        = disk
  | Admin.Ok changed =>
      ∃ index old stored,
        scripts !! index = Some old ∧ Admin.id old = wanted
        ∧ (∀ j s, scripts !! j = Some s → (j < index)%nat → Admin.id s ≠ wanted)
        ∧ changed = Admin.mkScript wanted newTitle newContent
                      (Admin.createdAt old) updated
        ∧ Admin.scriptsFile
            (fst (Admin.updateScript wanted updated logged newTitle newContent disk))
          = Some stored
        ∧ stored !! index = Some changed
        ∧ (∀ j, j ≠ index → stored !! j = scripts !! j)
        ∧ length stored = length scripts
        ∧ Admin.id <$> stored = Admin.id <$> scripts
        ∧ Admin.createdAt <$> stored = Admin.createdAt <$> scripts
  | Admin.Failed500 => False
  end.
Proof.
  intros Hs. unfold Admin.updateScript. rewrite Hs.
  destruct (Admin.findIndex wanted scripts) as [index|] eqn:Ef.
  - apply findIndex_Some in Ef as (old & Hold & Hid & Hfirst).
    rewrite Hold. cbn [snd fst]. rewrite logActivity_scripts. cbn.
    exists index, old, (<[index := Admin.mkScript (Admin.id old) newTitle newContent
                              (Admin.createdAt old) updated]> scripts).
    pose proof (lookup_lt_Some _ _ _ Hold) as Hlt.
    repeat split; try done.
    + by rewrite Hid.
    + by apply list_lookup_insert_eq.
    + intros j Hj. by apply list_lookup_insert_ne.
    + apply length_insert.
    + rewrite list_fmap_insert. cbn. apply list_insert_id.
      by rewrite list_lookup_fmap, Hold.
    + rewrite list_fmap_insert. cbn. apply list_insert_id.
      by rewrite list_lookup_fmap, Hold.
  - cbn. split; [by apply findIndex_None|done].
Qed.

Lemma updateScript_changes_first_match_witness :
  let disk := Admin.mkDisk
                (Some [Admin.mkScript "17" (Some "Intro") (Some "Hello") "t0" "t0"])
                (Some []) in
  Admin.scriptsFile disk
    = Some [Admin.mkScript "17" (Some "Intro") (Some "Hello") "t0" "t0"]
  ∧ snd (Admin.updateScript "17" "t1" (Admin.mkStamp "18" "t1")
           (Some "Intro") (Some "Hello world") disk)
    = Admin.Ok (Admin.mkScript "17" (Some "Intro") (Some "Hello world") "t0" "t1")
  ∧ match snd (Admin.updateScript "18" "t1" (Admin.mkStamp "18" "t1")
                 (Some "Intro") (Some "Hello world") disk) with
    | Admin.NotFound404 =>
        (∀ s, s ∈ [Admin.mkScript "17" (Some "Intro") (Some "Hello") "t0" "t0"] →
              Admin.id s ≠ "18")
        ∧ fst (Admin.updateScript "18" "t1" (Admin.mkStamp "18" "t1")
                 (Some "Intro") (Some "Hello world") disk) = disk
    | _ => True
    end.
Proof.
  cbn zeta. split; [reflexivity|]. split; [reflexivity|].
  pose proof (updateScript_changes_first_match "18" "t1" (Admin.mkStamp "18" "t1")
                (Some "Intro") (Some "Hello world")
                (Admin.mkDisk
                   (Some [Admin.mkScript "17" (Some "Intro") (Some "Hello") "t0" "t0"])
                   (Some []))
                _ eq_refl) as H.
  exact H.
Defined.

(** X17: deleting a script.  An id that no stored script has is answered
    404 and changes nothing on disk.  Otherwise exactly one script, the
    first with that id, is removed: the store is one shorter, the scripts
    with other ids are all kept in their order, and when the ids of the
    store are pairwise different no script with that id is left. *)
Theorem deleteScript_removes_first_match (wanted : string)
    (logged : Admin.Stamp) (disk : Admin.Disk) (scripts : list Admin.Script) :
  Admin.scriptsFile disk = Some scripts →
  match snd (Admin.deleteScript wanted logged disk) with
  | Admin.NotFound404 =>
      (∀ s, s ∈ scripts → Admin.id s ≠ wanted)
      ∧ fst (Admin.deleteScript wanted logged disk) = disk
  | Admin.Ok _ =>
      ∃ index old,
        scripts !! index = Some old ∧ Admin.id old = wanted
        ∧ (∀ j s, scripts !! j = Some s → (j < index)%nat → Admin.id s ≠ wanted)
        ∧ Admin.scriptsFile (fst (Admin.deleteScript wanted logged disk))
          = Some (delete index scripts)
        ∧ S (length (delete index scripts)) = length scripts
        ∧ filter (λ s, Admin.id s ≠ wanted) (delete index scripts)
          = filter (λ s, Admin.id s ≠ wanted) scripts
        ∧ (NoDup (Admin.id <$> scripts) →
           ∀ s, s ∈ delete index scripts → Admin.id s ≠ wanted)
  | Admin.Failed500 => False
  end.
Proof.
  intros Hs. unfold Admin.deleteScript. rewrite Hs.
  destruct (Admin.findIndex wanted scripts) as [index|] eqn:Ef.
  - apply findIndex_Some in Ef as (old & Hold & Hid & Hfirst).
    rewrite Hold. cbn [snd fst]. rewrite logActivity_scripts. cbn.
    exists index, old.
    pose proof (lookup_lt_Some _ _ _ Hold) as Hlt.
    pose proof (take_drop_middle _ _ _ Hold) as Hmid.
    repeat split; try done.
    + rewrite length_delete by eauto. lia.
    + rewrite <- Hmid at 2. rewrite delete_take_drop, !filter_app.
      by rewrite filter_cons_False by (intros H; by apply H).
    + intros Hnd s Hin Heq. rewrite delete_take_drop in Hin.
      rewrite <- Hmid, fmap_app, fmap_cons in Hnd.
      apply NoDup_app in Hnd as (_ & Hnot & Hnd).
      apply NoDup_cons in Hnd as [Hnotin _].
      apply elem_of_app in Hin as [Hin | Hin].
      * apply (Hnot (Admin.id s)); [by apply list_elem_of_fmap_2|].
        rewrite Heq, <- Hid. apply list_elem_of_here.
      * apply Hnotin. rewrite Hid, <- Heq. by apply list_elem_of_fmap_2.
  - cbn. split; [by apply findIndex_None|done].
Qed.

Lemma deleteScript_removes_first_match_witness :
  let a := Admin.mkScript "17" (Some "Intro") (Some "Hello") "t0" "t0" in
  let b := Admin.mkScript "18" (Some "Outro") (Some "Bye") "t1" "t1" in
  let disk := Admin.mkDisk (Some [a; b]) None in
  Admin.scriptsFile disk = Some [a; b]
  ∧ Admin.deleteScript "17" (Admin.mkStamp "19" "t2") disk
    = (Admin.mkDisk (Some [b]) None, Admin.Ok tt)
  ∧ match snd (Admin.deleteScript "17" (Admin.mkStamp "19" "t2") disk) with
    | Admin.Ok _ =>
        ∃ index old, [a; b] !! index = Some old ∧ Admin.id old = "17"
    | _ => True
    end.
Proof.
  cbn zeta. split; [reflexivity|]. split; [reflexivity|].
  pose proof (deleteScript_removes_first_match "17" (Admin.mkStamp "19" "t2")
                (Admin.mkDisk
                   (Some [Admin.mkScript "17" (Some "Intro") (Some "Hello") "t0" "t0";
                          Admin.mkScript "18" (Some "Outro") (Some "Bye") "t1" "t1"])
                   None)
                _ eq_refl) as H.
  cbn in *. destruct H as (index & old & H1 & H2 & _). by exists index, old.
Defined.

(** X18: creating a script appends it to the store, so the list of
    scripts shows the old ones unchanged and the new one last; and when the
    new id is not yet in use, deleting that id afterwards restores the
    store exactly. *)
Theorem createScript_then_deleteScript (newId created updated : string)
    (logged logged' : Admin.Stamp) (newTitle newContent : option string)
    (disk : Admin.Disk) (scripts : list Admin.Script) :
  Admin.scriptsFile disk = Some scripts →
  let newScript := Admin.mkScript newId newTitle newContent created updated in
  let disk1 :=
    fst (Admin.createScript newId created updated logged newTitle newContent disk) in
  snd (Admin.createScript newId created updated logged newTitle newContent disk)
    = Admin.Ok newScript
  ∧ Admin.getScripts disk1 = Admin.Ok (scripts ++ [newScript])%list
  ∧ ((∀ s, s ∈ scripts → Admin.id s ≠ newId) →
       snd (Admin.deleteScript newId logged' disk1) = Admin.Ok tt
       ∧ Admin.scriptsFile (fst (Admin.deleteScript newId logged' disk1))
         = Some scripts).
Proof.
  intros Hs. cbn zeta. unfold Admin.createScript. rewrite Hs. cbn [fst snd].
  split; [done|]. split.
  - unfold Admin.getScripts. by rewrite logActivity_scripts.
  - intros Hfresh. unfold Admin.deleteScript. rewrite logActivity_scripts.
    cbn [Admin.scriptsFile].
    assert (Hf : Admin.findIndex newId
                   (scripts ++ [Admin.mkScript newId newTitle newContent created updated])
                 = Some (length scripts)).
    { apply findIndex_Some. eexists. split; [by apply list_lookup_middle|].
      split; [done|]. intros j s Hj Hlt.
      rewrite lookup_app_l in Hj by done.
      apply Hfresh. by eapply list_elem_of_lookup_2. }
    rewrite Hf, list_lookup_middle by done. cbn [fst snd].
    rewrite logActivity_scripts. cbn [Admin.scriptsFile].
    split; [done|]. f_equal.
    rewrite (delete_middle scripts []). apply app_nil_r.
Qed.

Lemma createScript_then_deleteScript_witness :
  let a := Admin.mkScript "17" (Some "Intro") (Some "Hello") "t0" "t0" in
  let disk := Admin.mkDisk (Some [a]) (Some []) in
  Admin.scriptsFile disk = Some [a]
  ∧ snd (Admin.createScript "18" "t1" "t1" (Admin.mkStamp "18" "t1")
           (Some "Outro") (Some "Bye") disk)
    = Admin.Ok (Admin.mkScript "18" (Some "Outro") (Some "Bye") "t1" "t1").
Proof.
  cbn zeta. split; [reflexivity|].
  exact (proj1 (createScript_then_deleteScript "18" "t1" "t1"
                  (Admin.mkStamp "18" "t1") (Admin.mkStamp "19" "t2")
                  (Some "Outro") (Some "Bye")
                  (Admin.mkDisk
                     (Some [Admin.mkScript "17" (Some "Intro") (Some "Hello") "t0" "t0"])
                     (Some []))
                  _ eq_refl)).
Defined.

(** X19: a script operation neither fails nor stores anything else because
    of the activity log: its answer and the scripts it leaves on disk are
    the same whatever the log file holds, readable or not. *)
Theorem scripts_independent_of_log (scripts : option (list Admin.Script))
    (log log' : option (list Admin.Activity)) (wanted updated created : string)
    (logged : Admin.Stamp) (newTitle newContent : option string) :
  let d := Admin.mkDisk scripts log in
  let d' := Admin.mkDisk scripts log' in
  (snd (Admin.createScript wanted created updated logged newTitle newContent d)
     = snd (Admin.createScript wanted created updated logged newTitle newContent d')
   ∧ Admin.scriptsFile
       (fst (Admin.createScript wanted created updated logged newTitle newContent d))
     = Admin.scriptsFile
         (fst (Admin.createScript wanted created updated logged newTitle newContent d')))
  ∧ (snd (Admin.updateScript wanted updated logged newTitle newContent d)
       = snd (Admin.updateScript wanted updated logged newTitle newContent d')
     ∧ Admin.scriptsFile
         (fst (Admin.updateScript wanted updated logged newTitle newContent d))
       = Admin.scriptsFile
           (fst (Admin.updateScript wanted updated logged newTitle newContent d')))
  ∧ (snd (Admin.deleteScript wanted logged d)
       = snd (Admin.deleteScript wanted logged d')
     ∧ Admin.scriptsFile (fst (Admin.deleteScript wanted logged d))
       = Admin.scriptsFile (fst (Admin.deleteScript wanted logged d'))).
Proof.
  cbn zeta.
  unfold Admin.createScript, Admin.updateScript, Admin.deleteScript.
  cbn [Admin.scriptsFile Admin.activityFile].
  destruct scripts as [l|]; [|done].
  repeat split; cbn [fst snd]; rewrite ?logActivity_scripts; try done.
  all: destruct (Admin.findIndex wanted l) as [i|]; [|done].
  all: destruct (l !! i); [|done].
  all: cbn [fst snd]; rewrite ?logActivity_scripts; done.
Qed.

(** ** The activity log *)

(** X20: [logActivity] does nothing when the log cannot be read.
    Otherwise the new entry becomes the last one, the log keeps its most
    recent entries only, never more than 1000, and the scripts file is not
    touched. *)
Theorem logActivity_keeps_last_1000 (at_ : Admin.Stamp) (action : string)
    (details : list (string * option string)) (disk : Admin.Disk) :
  let entry := Admin.mkActivity (Admin.millis at_) (Admin.iso at_) action details in
  (Admin.activityFile disk = None →
     Admin.logActivity at_ action details disk = disk)
  ∧ (∀ log, Admin.activityFile disk = Some log →
       ∃ log', Admin.activityFile (Admin.logActivity at_ action details disk)
               = Some log'
         ∧ length log' = Nat.min (length log + 1) 1000
         ∧ last log' = Some entry
         ∧ log' `suffix_of` (log ++ [entry])%list
         ∧ Admin.scriptsFile (Admin.logActivity at_ action details disk)
           = Admin.scriptsFile disk).
Proof.
  cbn zeta. unfold Admin.logActivity. split; [by intros ->|].
  intros log ->. cbn [Admin.activityFile Admin.scriptsFile].
  set (entry := Admin.mkActivity _ _ _ _).
  eexists. split; [reflexivity|].
  destruct (Nat.ltb_spec 1000 (length (log ++ [entry]))) as [Hlong | Hshort];
    rewrite length_app in *; cbn [length] in *.
  - split; [rewrite length_drop, length_app; cbn; lia|]. split; [|split; [|done]].
    + rewrite drop_app_le by lia. apply last_snoc.
    + apply suffix_drop.
  - split; [lia|]. split; [apply last_snoc|]. done.
Qed.

Lemma logActivity_keeps_last_1000_witness :
  let disk := Admin.mkDisk None (Some []) in
  Admin.activityFile disk = Some []
  ∧ ∃ log', Admin.activityFile
              (Admin.logActivity (Admin.mkStamp "5" "t5") "Admin login"
                 [("email", Some "a@b.c")] disk) = Some log'
      ∧ length log' = Nat.min (length (@nil Admin.Activity) + 1) 1000.
Proof.
  cbn zeta. split; [reflexivity|].
  destruct (proj2 (logActivity_keeps_last_1000 (Admin.mkStamp "5" "t5")
                     "Admin login" [("email", Some "a@b.c")]
                     (Admin.mkDisk None (Some []))) [] eq_refl)
    as (log' & H1 & H2 & _).
  exists log'. split; [exact H1 | exact H2].
Defined.

Lemma slice_last (n : Z) {A} (l : list A) :
  (0 < n)%Z →
  slice l (- n) (Z.of_nat (length l)) = drop (length l - Z.to_nat n) l.
Proof.
  intros Hn. unfold slice, slice_bound.
  destruct (Z.ltb_spec (- n) 0) as [_|?]; [|lia].
  destruct (Z.ltb_spec (Z.of_nat (length l)) 0) as [?|_]; [lia|].
  replace (Z.to_nat (Z.max _ 0)) with (length l - Z.to_nat n)%nat by lia.
  apply take_ge. rewrite length_drop. lia.
Qed.

(** X21: the activity page answers 500 when the log cannot be read;
    otherwise it lists the most recent entries, at most 100, newest first,
    and an action that has just been logged is the first of them. *)
Theorem getActivity_newest_first (disk : Admin.Disk) :
  (Admin.activityFile disk = None → Admin.getActivity disk = Admin.Failed500)
  ∧ (∀ log, Admin.activityFile disk = Some log →
       ∃ shown, Admin.getActivity disk = Admin.Ok shown
         ∧ shown = reverse (drop (length log - 100) log)
         ∧ length shown = Nat.min 100 (length log)
         ∧ head shown = last log
         ∧ ∀ at_ action details,
             ∃ shown', Admin.getActivity (Admin.logActivity at_ action details disk)
                       = Admin.Ok shown'
               ∧ head shown'
                 = Some (Admin.mkActivity (Admin.millis at_) (Admin.iso at_)
                           action details)).
Proof.
  unfold Admin.getActivity. split; [by intros ->|].
  intros log Hlog. rewrite Hlog.
  assert (Hshow : ∀ l : list Admin.Activity,
            reverse (slice l (-100) (Z.of_nat (length l)))
            = reverse (drop (length l - 100) l)
            ∧ head (reverse (slice l (-100) (Z.of_nat (length l)))) = last l).
  { intros l. pose proof (slice_last 100 l eq_refl) as Hsl.
    change (Z.opp 100) with (Z.neg 100) in Hsl.
    change (Z.to_nat 100) with 100%nat in Hsl.
    rewrite Hsl. split; [done|].
    rewrite head_reverse.
    destruct (decide (l = [])) as [-> | Hne]; [done|].
    assert (Hlen : (0 < length l)%nat) by (destruct l; [done|cbn; lia]).
    rewrite !last_lookup, lookup_drop, length_drop. f_equal. lia. }
  destruct (Hshow log) as [Heq Hhead].
  eexists. split; [reflexivity|]. split; [exact Heq|].
  split; [rewrite Heq, length_reverse, length_drop; lia|].
  split; [exact Hhead|].
  intros at_ action details. unfold Admin.logActivity. rewrite Hlog.
  cbn [Admin.activityFile]. eexists. split; [reflexivity|].
  rewrite (proj2 (Hshow _)).
  set (entry := Admin.mkActivity _ _ _ _).
  destruct (1000 <? length (log ++ [entry]))%nat eqn:E; [|apply last_snoc].
  apply Nat.ltb_lt in E. rewrite length_app in *. cbn [length] in *.
  rewrite drop_app_le by lia. apply last_snoc.
Qed.

Lemma getActivity_newest_first_witness :
  let e1 := Admin.mkActivity "1" "t1" "Admin login" [] in
  let e2 := Admin.mkActivity "2" "t2" "Admin logout" [] in
  Admin.activityFile (Admin.mkDisk None (Some [e1; e2])) = Some [e1; e2]
  ∧ ∃ shown, Admin.getActivity (Admin.mkDisk None (Some [e1; e2]))
             = Admin.Ok shown
      ∧ head shown = last [e1; e2].
Proof.
  cbn zeta. split; [reflexivity|].
  destruct (proj2 (getActivity_newest_first
                     (Admin.mkDisk None
                        (Some [Admin.mkActivity "1" "t1" "Admin login" [];
                               Admin.mkActivity "2" "t2" "Admin logout" []])))
              _ eq_refl)
    as (shown & H1 & _ & _ & H2 & _).
  exists shown. split; [exact H1 | exact H2].
Defined.

(** ** Credit against the words of the window *)

Lemma inject_nat_add (n m : nat) :
  (inject_Z (Z.of_nat (n + m)) == inject_Z (Z.of_nat n) + inject_Z (Z.of_nat m))%Q.
Proof. by rewrite Nat2Z.inj_add, inject_Z_plus. Qed.

Lemma inject_nat_le (n m : nat) :
  (n <= m)%nat → (inject_Z (Z.of_nat n) <= inject_Z (Z.of_nat m))%Q.
Proof. intros H. rewrite <- Zle_Qle. lia. Qed.

(** A token earns no more credit than the cursor moves. *)
Lemma walk_credit_by_cursor (scriptWords tokens : list string) :
  ∀ position matchCount,
    (snd (walk scriptWords tokens position matchCount)
       + inject_Z (Z.of_nat position)
     <= matchCount
        + inject_Z (Z.of_nat (fst (walk scriptWords tokens position matchCount))))%Q.
Proof.
  induction tokens as [|t rest IH]; intros position matchCount.
  - cbn. lra.
  - cbn [walk].
    destruct (position <? length scriptWords)%nat; [|cbn; lra].
    pose proof (match_token_cursor scriptWords t position matchCount) as Hc.
    cbn zeta in Hc.
    destruct (match_token scriptWords t position matchCount) as [p' c'].
    cbn [fst snd] in Hc. specialize (IH p' c').
    pose proof (inject_nat_add position 2) as H2.
    pose proof (inject_nat_add position 1) as H1.
    change (inject_Z (Z.of_nat 2)) with 2%Q in H2.
    change (inject_Z (Z.of_nat 1)) with 1%Q in H1.
    destruct Hc as [(-> & -> & _) | [(-> & [-> | [-> | [-> _]]]) | (-> & -> & _)]];
      lra.
Qed.

Lemma candidate_credit_le_window (scriptWords tokens : list string) (i : nat) :
  (candidate_score scriptWords tokens i * inject_Z (Z.of_nat (length tokens))
     <= inject_Z (Z.of_nat (length scriptWords)))%Q.
Proof.
  pose proof (inject_nat_nonneg (length scriptWords)) as Hlen.
  destruct tokens as [|t rest].
  { cbn [length]. change (inject_Z (Z.of_nat 0)) with 0%Q.
    by rewrite Qmult_0_r. }
  set (tokens := t :: rest).
  assert (Hpos : ¬ (inject_Z (Z.of_nat (length tokens)) == 0)%Q).
  { unfold Qeq. cbn. lia. }
  unfold candidate_score.
  assert (Hdiv : (snd (walk scriptWords tokens i 0)
                    / inject_Z (Z.of_nat (length tokens))
                    * inject_Z (Z.of_nat (length tokens))
                  == snd (walk scriptWords tokens i 0))%Q) by (by field).
  rewrite Hdiv.
  pose proof (walk_credit_by_cursor scriptWords tokens i 0) as Hc.
  pose proof (walk_cursor scriptWords tokens i 0) as (_ & _ & Hmax).
  pose proof (inject_nat_nonneg i) as Hi.
  destruct (Nat.le_gt_cases i (length scriptWords)) as [Hle | Hgt].
  - pose proof (inject_nat_le _ _ Hmax) as Hm.
    rewrite Nat.max_r in Hm by done. lra.
  - assert (Hw : walk scriptWords tokens i 0 = (i, 0%Q)).
    { cbn [walk tokens].
      destruct (Nat.ltb_spec i (length scriptWords)); [lia|done]. }
    rewrite Hw. cbn [snd]. lra.
Qed.

(** X22: the credit of a walk is bounded by the window as well as by the
    transcript: it never exceeds the number of window words the cursor has
    passed, hence never the number of words from the candidate start to the
    end of the window.  So a transcript with more tokens than the window has
    words never scores 1. *)
Theorem credit_bounded_by_window (transcript : string)
    (scriptWords : list string) (i : nat) :
  (snd (walk scriptWords (tokenize transcript) i 0) + inject_Z (Z.of_nat i)
     <= inject_Z (Z.of_nat (fst (walk scriptWords (tokenize transcript) i 0))))%Q
  ∧ (snd (walk scriptWords (tokenize transcript) i 0)
       <= inject_Z (Z.of_nat (length scriptWords - i)))%Q
  ∧ ((length scriptWords < length (tokenize transcript))%nat →
       (score (calculateMatch transcript scriptWords) < 1)%Q).
Proof.
  set (tokens := tokenize transcript).
  pose proof (walk_credit_by_cursor scriptWords tokens i 0) as Hc.
  split; [lra|]. split.
  - destruct (Nat.le_gt_cases i (length scriptWords)) as [Hle | Hgt].
    + pose proof (walk_cursor scriptWords tokens i 0) as (_ & _ & Hmax).
      rewrite Nat.max_r in Hmax by done.
      pose proof (inject_nat_le _ _ Hmax) as Hm.
      pose proof (inject_nat_add i (length scriptWords - i)) as Hsum.
      replace (i + (length scriptWords - i))%nat with (length scriptWords)
        in Hsum by lia.
      lra.
    + assert (Hw : walk scriptWords tokens i 0 = (i, 0%Q)).
      { destruct tokens as [|t rest]; [done|]. cbn [walk].
        destruct (Nat.ltb_spec i (length scriptWords)); [lia|done]. }
      rewrite Hw. cbn [snd]. apply inject_nat_nonneg.
  - intros Hlong. unfold calculateMatch. fold tokens.
    assert (Hne : tokens ≠ []) by (intros E; rewrite E in Hlong; cbn in Hlong; lia).
    apply Qnot_le_lt. intros Hone.
    assert (Hb : (score (match_tokens tokens scriptWords)
                    * inject_Z (Z.of_nat (length tokens))
                  <= inject_Z (Z.of_nat (length scriptWords)))%Q).
    { rewrite match_tokens_nonempty by done. cbn [score].
      destruct (scan_cases scriptWords tokens (seq 0 (length scriptWords)) (0%Q, None))
        as [-> | (k & _ & -> & _)]; cbn [fst].
      - pose proof (inject_nat_nonneg (length scriptWords)). lra.
      - apply candidate_credit_le_window. }
    pose proof (Qmult_le_compat_r _ _ (inject_Z (Z.of_nat (length tokens))) Hone
                  (inject_nat_nonneg _)) as Hm.
    assert (Hlt : (inject_Z (Z.of_nat (length scriptWords))
                     < inject_Z (Z.of_nat (length tokens)))%Q)
      by (rewrite <- Zlt_Qlt; lia).
    lra.
Qed.

Lemma credit_bounded_by_window_witness :
  (length ["test"] < length (tokenize "a test"))%nat
  ∧ (score (calculateMatch "a test" ["test"]) < 1)%Q.
Proof.
  assert (H : (length ["test"] < length (tokenize "a test"))%nat)
    by (vm_compute; lia).
  split; [exact H|].
  exact (proj2 (proj2 (credit_bounded_by_window "a test" ["test"] 0)) H).
Defined.

(** X23: lowering the threshold is lenient only: a request that is
    answered RUNNING gets the very same response at any lower threshold. *)
Theorem lower_threshold_keeps_response (file : bool)
    (window : option (list string)) (index : option Z) (th th' : Q)
    (recognised : option string) (body : Response) :
  (th' <= th)%Q →
  transcribe (mkRequest file window index (Some th)) recognised = Ok200 body →
  state body = RUNNING →
  transcribe (mkRequest file window index (Some th')) recognised = Ok200 body.
Proof.
  intros Hle H Hrun. unfold transcribe in *.
  cbn [hasFile scriptWindow currentIndex threshold default from_option id] in *.
  destruct (negb file); [done|]. destruct recognised as [text|]; [|done].
  destruct (String.eqb (JS.trim text) EmptyString); [done|].
  injection H as <-. f_equal. unfold respond in *; cbn [state] in Hrun.
  destruct (Qle_bool th _) eqn:E; [|done].
  apply Qle_bool_iff in E.
  assert (E' : Qle_bool th' (score (calculateMatch text (default [] window))) = true)
    by (apply Qle_bool_iff; lra).
  cbn [default from_option id] in *. by rewrite E'.
Qed.

Lemma lower_threshold_keeps_response_witness :
  ((3 # 10) <= (6 # 10))%Q
  ∧ transcribe (mkRequest true (Some demoScript) (Some 0%Z) (Some (3 # 10)))
      (Some "hello world")
    = Ok200 (respond "hello world" (calculateMatch "hello world" demoScript) 0 (6 # 10)).
Proof.
  assert (H : ((3 # 10) <= (6 # 10))%Q) by (vm_compute; discriminate).
  split; [exact H|].
  exact (lower_threshold_keeps_response true (Some demoScript) (Some 0%Z)
           (6 # 10) (3 # 10) (Some "hello world") _ H eq_refl eq_refl).
Defined.
